(** * Utilities.ts: the reflection helpers getValue, setValue and getFunction

    A shallow embedding of the "Object Getter/Setter (reflection)" and
    "Function getters (reflection)" regions of
    [Sample-App/app/Services/Utilities.ts], followed by the platform
    tests, the string helpers, [generateGuid] and [categories] of the same
    class.

    The JavaScript object graph is a store of objects addressed by
    references: [setValue] mutates the objects it walks through, so two
    paths that reach the same object see the same writes.  An object has a
    prototype, own properties and may be callable; a property is read
    along the prototype chain, so the members every object inherits
    ([constructor], [toString], [__proto__], ...) are found where the
    store holds them, and so are the members numbers, booleans and strings
    inherit.  A property is a data property, writable or not, or the
    [__proto__] accessor; properties with getters and setters written by
    the user, arrays and proxies are not represented.  The primitive
    values are [undefined], [null], booleans, numbers (integral ones are
    enough here) and strings.
    A string is a sequence of UTF-16 code units; a character of a Rocq
    string stands for one code unit, of value 0 to 255.  The code is
    compiled without a "use strict" directive: an assignment that cannot be
    made is silently dropped, and a function called without a receiver
    runs with the global object as [this]. *)

From Stdlib Require Import ZArith Ascii String.
From stdpp Require Import gmap strings list fin_maps pretty.

Open Scope Z_scope.
Open Scope string_scope.

(** ** Values, objects and the store *)

Definition loc := positive.

Inductive value : Type :=
  | VUndefined
  | VNull
  | VBool (b : bool)
  | VNum (n : Z)
  | VStr (s : string)
  | VRef (l : loc).

#[global] Instance value_eq_dec : EqDecision value.
Proof. solve_decision. Defined.

(** Abrupt completions: the only exception the modelled code can meet. *)
Inductive error : Type :=
  | TypeError.

Inductive completion (A : Type) : Type :=
  | Normal (a : A)
  | Throw (e : error).
Arguments Normal {A} a.
Arguments Throw {A} e.

Definition bind_completion {A B} (c : completion A) (k : A → completion B)
  : completion B :=
  match c with
  | Normal a => k a
  | Throw e => Throw e
  end.

#[global] Instance completion_bind : MBind completion :=
  fun A B k c => bind_completion c k.

(** A function body sees its receiver and can read properties of the
    graph; [Bound] is a function produced by binding a receiver; [Builtin]
    is a function of the standard library, known by its name only. *)
Inductive callable : Type :=
  | Native (body : (value → string → completion value) → value → completion value)
  | Bound (target : callable) (receiver : value)
  | Builtin (name : string).

(** A property is a data property, holding a value that may or may not
    be assigned to, or the accessor [__proto__] of [Object.prototype]. *)
Inductive property : Type :=
  | Data (v : value) (writable : bool)
  | ProtoAccessor.

(** [obj_proto] is the prototype, a reference or [null]; an object that is
    not extensible takes no new property. *)
Record object : Type := Obj {
  obj_call : option callable;
  obj_proto : value;
  obj_extensible : bool;
  obj_props : gmap string property
}.

Abbreviation heap := (gmap loc object).

(** The addresses of the prototypes the language itself refers to. *)
Definition object_prototype : loc := 1%positive.
Definition function_prototype : loc := 2%positive.
Definition number_prototype : loc := 3%positive.
Definition boolean_prototype : loc := 4%positive.
Definition string_prototype : loc := 5%positive.

Definition builtin_locs : gset loc :=
  {[ object_prototype; function_prototype; number_prototype;
     boolean_prototype; string_prototype ]}.

(** The object literal [{}]. *)
Definition empty_object : object := Obj None (VRef object_prototype) true ∅.

(** ** Conversions and tests of the language *)

(** ToBoolean: what [if (x)] and [!x] look at. *)
Definition truthy (v : value) : bool :=
  match v with
  | VUndefined | VNull => false
  | VBool b => b
  | VNum n => negb (Z.eqb n 0)
  | VStr s => negb (String.eqb s "")
  | VRef _ => true
  end.

(** [x == null]: true of [null] and [undefined] only. *)
Definition is_nullish (v : value) : bool :=
  match v with
  | VUndefined | VNull => true
  | _ => false
  end.

Definition is_string (v : value) : bool :=
  match v with
  | VStr _ => true
  | _ => false
  end.

(** ** Property access *)

(** Own properties of a string primitive: [length], the number of its
    code units, and one property per code unit, named by the decimal form
    of its index. *)
Definition string_prop (s : string) (k : string) : option value :=
  if String.eqb k "length" then Some (VNum (Z.of_nat (String.length s)))
  else
    match List.find (fun i => String.eqb (pretty i) k) (seq 0 (String.length s)) with
    | Some i => Some (VStr (String.substring i 1 s))
    | None => None
    end.

(** The property named [k] as found from the object at [l] upwards: the
    object's own, or else the one its prototype gives. [fuel] bounds the
    length of the chain. *)
Fixpoint lookup_chain (fuel : nat) (h : heap) (l : loc) (k : string)
  : option property :=
  match fuel with
  | O => None
  | S fuel' =>
      match h !! l with
      | None => None
      | Some o =>
          match obj_props o !! k with
          | Some p => Some p
          | None =>
              match obj_proto o with
              | VRef l' => lookup_chain fuel' h l' k
              | _ => None
              end
          end
      end
  end.

(** A prototype chain has no cycle, so it is no longer than the store has
    objects. *)
Definition find_property (h : heap) (l : loc) (k : string) : option property :=
  lookup_chain (S (size h)) h l k.

(** The prototype of a value, as [Object.getPrototypeOf(Object(v))]. *)
Definition prototype_of (h : heap) (v : value) : value :=
  match v with
  | VUndefined | VNull => VUndefined
  | VBool _ => VRef boolean_prototype
  | VNum _ => VRef number_prototype
  | VStr _ => VRef string_prototype
  | VRef l =>
      match h !! l with
      | Some o => obj_proto o
      | None => VUndefined
      end
  end.

(** What reading a property found for [receiver] yields. *)
Definition property_value (h : heap) (receiver : value) (p : option property)
  : value :=
  match p with
  | Some (Data v _) => v
  | Some ProtoAccessor => prototype_of h receiver
  | None => VUndefined
  end.

(** [object[property]] as an expression. Reading from [null] or
    [undefined] throws; a primitive is read through the prototype of its
    kind; a reference to nothing has no properties. *)
Definition get_prop (h : heap) (object : value) (property : string)
  : completion value :=
  match object with
  | VUndefined | VNull => Throw TypeError
  | VBool _ =>
      Normal (property_value h object (find_property h boolean_prototype property))
  | VNum _ =>
      Normal (property_value h object (find_property h number_prototype property))
  | VStr s =>
      match string_prop s property with
      | Some v => Normal v
      | None =>
          Normal (property_value h object (find_property h string_prototype property))
      end
  | VRef l => Normal (property_value h object (find_property h l property))
  end.

(** Whether [target] is met on the prototype chain that starts at [v]. *)
Fixpoint proto_reaches (fuel : nat) (h : heap) (v : value) (target : loc) : bool :=
  match fuel with
  | O => false
  | S fuel' =>
      match v with
      | VRef l =>
          if decide (l = target) then true
          else
            match h !! l with
            | Some o => proto_reaches fuel' h (obj_proto o) target
            | None => false
            end
      | _ => false
      end
  end.

(** The setter of [__proto__] on the object [o] at [l]: a value that is
    neither an object nor [null] is ignored; the prototype of an object
    that is not extensible cannot change, nor can that of
    [Object.prototype], nor can a prototype chain be closed into a
    cycle. *)
Definition set_prototype (h : heap) (l : loc) (o : object) (v : value)
  : completion heap :=
  match v with
  | VNull | VRef _ =>
      if decide (v = obj_proto o) then Normal h
      else if negb (obj_extensible o) || bool_decide (l = object_prototype)
      then Throw TypeError
      else if proto_reaches (S (size h)) h v l then Throw TypeError
      else Normal (<[l := Obj (obj_call o) v (obj_extensible o) (obj_props o)]> h)
  | _ => Normal h
  end.

(** The object [o] with [v] as own, writable property [k]. *)
Definition with_property (o : object) (k : string) (v : value) : object :=
  Obj (obj_call o) (obj_proto o) (obj_extensible o) (<[k := Data v true]> (obj_props o)).

(** What the prototype chain above [o] has under [k]. *)
Definition inherited (h : heap) (o : object) (k : string) : option property :=
  match obj_proto o with
  | VRef l' => find_property h l' k
  | _ => None
  end.

(** [object[property] = v] as a statement. Writing to [null] or
    [undefined] throws; writing to a primitive is dropped. On an object,
    an own writable property takes the value; a property that is not
    writable, own or inherited, keeps the assignment from being made;
    [__proto__], own or inherited, runs its setter; otherwise the object
    gets a new own property, if it is extensible. *)
Definition put_prop (h : heap) (object : value) (property : string) (v : value)
  : completion heap :=
  match object with
  | VUndefined | VNull => Throw TypeError
  | VBool _ | VNum _ | VStr _ => Normal h
  | VRef l =>
      match h !! l with
      | None => Normal h
      | Some o =>
          match obj_props o !! property with
          | Some (Data _ true) => Normal (<[l := with_property o property v]> h)
          | Some (Data _ false) => Normal h
          | Some ProtoAccessor => set_prototype h l o v
          | None =>
              match inherited h o property with
              | Some (Data _ false) => Normal h
              | Some ProtoAccessor => set_prototype h l o v
              | Some (Data _ true) | None =>
                  if obj_extensible o
                  then Normal (<[l := with_property o property v]> h)
                  else Normal h
              end
          end
      end
  end.

(** An address that is not in use. *)
Definition new_loc (h : heap) : loc := fresh (dom h ∪ builtin_locs).

(** Evaluating an expression that creates the object [o]. *)
Definition alloc (h : heap) (o : object) : heap * value :=
  (<[new_loc h := o]> h, VRef (new_loc h)).

(** ** Strings *)

Definition is_dot (c : Ascii.ascii) : bool := Ascii.eqb c "."%char.

(** [s.split(".")] *)
Fixpoint split_dot (s : string) : list string :=
  match s with
  | EmptyString => [EmptyString]
  | String c rest =>
      if is_dot c then EmptyString :: split_dot rest
      else
        match split_dot rest with
        | [] => [String c EmptyString]
        | t :: ts => String c t :: ts
        end
  end.

(** [s.indexOf(".")], counting from position [i]; -1 when there is none. *)
Fixpoint indexOf_from (i : Z) (s : string) : Z :=
  match s with
  | EmptyString => -1
  | String c rest => if is_dot c then i else indexOf_from (i + 1) rest
  end.

Definition indexOf_dot (s : string) : Z := indexOf_from 0 s.

(** [s.lastIndexOf(".")]; [found] is the last position seen so far. *)
Fixpoint lastIndexOf_from (i found : Z) (s : string) : Z :=
  match s with
  | EmptyString => found
  | String c rest => lastIndexOf_from (i + 1) (if is_dot c then i else found) rest
  end.

Definition lastIndexOf_dot (s : string) : Z := lastIndexOf_from 0 (-1) s.

(** [s.substr(start, len)] for non-negative arguments. *)
Definition substr (s : string) (start len : Z) : string :=
  String.substring (Z.to_nat start) (Z.to_nat len) s.


(** ** getValue *)

(** The [for] loop of [getValue]: [properties] are the tokens not yet
    consumed, [object] the loop variable of the same name. *)
Fixpoint getValue_loop (h : heap) (object : value) (properties : list string)
  : completion value :=
  match properties with
  | [] => Normal object
  | property :: rest =>
      object' ← get_prop h object property;
      if is_nullish object' then Normal VNull
      else getValue_loop h object' rest
  end.

(** [propertyString] is [None] for a [null] or [undefined] argument. *)
Definition getValue (h : heap) (object : value) (propertyString : option string)
  : completion value :=
  if negb (truthy object) then Normal VNull
  else
    match propertyString with
    | None => Normal VNull
    | Some ps =>
        if String.eqb ps "" then Normal VNull
        else
          direct ← get_prop h object ps;
          if truthy direct then Normal direct
          else getValue_loop h object (split_dot ps)
    end.

(** ** setValue *)

Section SetValue.
Variable value' : value.
Variable instantiateObjects : bool.

(** The [for] loop of [setValue]. The last token assigns; every other
    token descends, creating an object when the flag allows it, or
    returns. *)
Fixpoint setValue_loop (h : heap) (object : value) (properties : list string)
  : completion heap :=
  match properties with
  | [] => Normal h
  | property :: rest =>
      match rest with
      | [] => put_prop h object property value'
      | _ :: _ =>
          current ← get_prop h object property;
          if truthy current then setValue_loop h current rest
          else if instantiateObjects then
            let (h1, fresh_object) := alloc h empty_object in
            h2 ← put_prop h1 object property fresh_object;
            object' ← get_prop h2 object property;
            setValue_loop h2 object' rest
          else Normal h
      end
  end.
End SetValue.

(** [instantiateObjects] is [None] when the argument is left out. *)
Definition setValue (h : heap) (object : value) (propertyString : option string)
    (v : value) (instantiateObjects : option bool) : completion heap :=
  if negb (truthy object) then Normal h
  else
    match propertyString with
    | None => Normal h
    | Some ps =>
        if String.eqb ps "" then Normal h
        else setValue_loop v (default true instantiateObjects) h object (split_dot ps)
    end.

(** ** getFunction *)

Definition callable_of (h : heap) (fn : value) : option callable :=
  match fn with
  | VRef l => o ← h !! l; obj_call o
  | _ => None
  end.

Section GetFunction.
(** The global object, [window]. *)
Variable window : value.

Section Calls.
(** What the functions of the standard library do, by name: this is not
    part of the program. *)
Variable builtin :
  string → (value → string → completion value) → value → completion value.

(** Calling [c] with [this] as receiver. A bound function ignores the
    receiver of the call; a body called with no receiver sees [window]. *)
Fixpoint call (h : heap) (c : callable) (this : value) : completion value :=
  match c with
  | Native body => body (get_prop h) (if is_nullish this then window else this)
  | Bound target receiver => call h target receiver
  | Builtin name => builtin name (get_prop h) this
  end.

(** [fn.call(this)]; [fn()] is [invoke h fn VUndefined]. *)
Definition invoke (h : heap) (fn : value) (this : value) : completion value :=
  match callable_of h fn with
  | Some c => call h c this
  | None => Throw TypeError
  end.
End Calls.

(** The own properties of a function made by binding [fn]: [length],
    which no argument is taken off, and [name]. *)
Definition bound_props (h : heap) (fn : value) : gmap string property :=
  let length :=
    match fn with
    | VRef l =>
        match h !! l with
        | Some o =>
            match obj_props o !! "length" with
            | Some (Data (VNum n) _) => Z.max 0 n
            | _ => 0
            end
        | None => 0
        end
    | _ => 0
    end in
  let name :=
    match get_prop h fn "name" with
    | Normal (VStr s) => s
    | _ => ""
    end in
  <[ "length" := Data (VNum length) false ]>
    {[ "name" := Data (VStr ("bound " ++ name)) false ]}.

(** Modelled from the spec: [_.bind] belongs to the Underscore library,
    which is not part of the sources. It produces a new function that,
    when invoked, calls the raw callable with [context] as its receiver;
    Underscore rejects a target that is not a function. *)
Definition bind (h : heap) (fn context : value) : completion (heap * value) :=
  match callable_of h fn with
  | Some c =>
      Normal (alloc h (Obj (Some (Bound c context)) (VRef function_prototype) true
                         (bound_props h fn)))
  | None => Throw TypeError
  end.

(** [inferContext] is [None] for a [null] or missing argument. The first
    argument is either the scope or, when it is a string, the path. *)
Definition getFunction (h : heap) (scopeOrPropertyString : value)
    (propertyString : option string) (inferContext : option bool)
  : completion (heap * value) :=
  let inferContext := default true inferContext in
  let '(scope, propertyString) :=
    match scopeOrPropertyString with
    | VStr s => (window, Some s)
    | _ => (scopeOrPropertyString, propertyString)
    end in
  fn ← getValue h scope propertyString;
  if negb (truthy fn) then Normal (h, VNull)
  else if inferContext then
    context ←
      match propertyString with
      | None => Throw TypeError
      | Some ps =>
          if indexOf_dot ps >? -1
          then getValue h scope (Some (substr ps 0 (lastIndexOf_dot ps)))
          else Normal scope
      end;
    bind h fn context
  else Normal (h, fn).
End GetFunction.

(** ** Vocabulary of the specification *)

(** The specification does not tell [null] from an absent value. *)
Definition absent_as_null (v : value) : value :=
  if is_nullish v then VNull else v.

(** What a chain of segments resolves to: [object[t1][t2]...], absent as
    soon as a segment is read off [null] or [undefined]. *)
Fixpoint descend (h : heap) (object : value) (tokens : list string) : value :=
  match tokens with
  | [] => object
  | t :: rest =>
      match get_prop h object t with
      | Normal v => descend h v rest
      | Throw _ => VUndefined
      end
  end.

(** Where the walk of [setValue] gets by stepping into truthy values only:
    the value reached when the start and every value stepped into is
    truthy. *)
Fixpoint truthy_walk (h : heap) (object : value) (tokens : list string)
  : option value :=
  if truthy object then
    match tokens with
    | [] => Some object
    | t :: rest =>
        match get_prop h object t with
        | Normal v => truthy_walk h v rest
        | Throw _ => None
        end
    end
  else None.

Fixpoint has_dot (s : string) : bool :=
  match s with
  | EmptyString => false
  | String c rest => is_dot c || has_dot rest
  end.


(** A scalar that is neither a mapping nor null. *)
Definition is_scalar (v : value) : bool :=
  match v with
  | VBool _ | VNum _ | VStr _ => true
  | _ => false
  end.

(** The exact-key test of [getValue] fails on [root] for [ps]. *)
Definition no_direct_hit (h : heap) (root : value) (ps : string) : bool :=
  negb (truthy (descend h root [ps])).

(** Reading back what was written. *)
Definition round_trips (h : heap) (root : value) (ps : string) (v : value)
    (instantiate : bool) : Prop :=
  ∃ h', setValue h root (Some ps) v (Some instantiate) = Normal h'
        ∧ getValue h' root (Some ps) = Normal (absent_as_null v).


(** Some intermediate segment of [ps] resolves to [null] or to nothing
    before the final segment is reached. *)
Definition segment_unresolved (h : heap) (root : value) (ps : string) : Prop :=
  ∃ pre post, split_dot ps = (pre ++ post)%list ∧ pre ≠ [] ∧ post ≠ []
              ∧ is_nullish (descend h root pre) = true.

(** Position of the last dot of a string, if it has one. *)
Fixpoint last_dot_pos (s : string) : option nat :=
  match s with
  | EmptyString => None
  | String c rest =>
      match last_dot_pos rest with
      | Some n => Some (S n)
      | None => if is_dot c then Some 0%nat else None
      end
  end.

(** The own property [k] of the object at address [l]. *)
Definition own_slot (h : heap) (l : loc) (k : string) : option property :=
  o ← h !! l; obj_props o !! k.

(** The value held by the own property [k] of the object at address [l]. *)
Definition slot_value (h : heap) (l : loc) (k : string) : value :=
  match own_slot h l k with
  | Some (Data v _) => v
  | _ => VUndefined
  end.

(** The assignment [object[k] = v] on the object at [l] gives it [v] as
    own property: [k] is an own writable property, or it is not an own
    property, the object is extensible and nothing inherited stands in
    the way. *)
Definition assignable (h : heap) (l : loc) (k : string) : bool :=
  match h !! l with
  | Some o =>
      match obj_props o !! k with
      | Some (Data _ writable) => writable
      | Some ProtoAccessor => false
      | None =>
          obj_extensible o &&
          match inherited h o k with
          | Some (Data _ writable) => writable
          | Some ProtoAccessor => false
          | None => true
          end
      end
  | None => false
  end.







(** ** The graphs of the scenarios *)

(** A function of the standard library: its name and the number of its
    parameters cannot be assigned to. *)
Definition builtin_function (name : string) (length : Z) : object :=
  Obj (Some (Builtin name)) (VRef function_prototype) true
    (<[ "name" := Data (VStr name) false ]>
       {[ "length" := Data (VNum length) false ]}).

(** A constructor of the standard library, with its [prototype]. *)
Definition builtin_constructor (name : string) (prototype : loc) : object :=
  Obj (Some (Builtin name)) (VRef function_prototype) true
    (<[ "prototype" := Data (VRef prototype) false ]>
       (<[ "name" := Data (VStr name) false ]>
          {[ "length" := Data (VNum 1) false ]})).

(** The part of the standard library that the scenarios can meet: the
    prototypes of objects, functions, numbers, booleans and strings, with
    their constructors and a few of the methods every object inherits. *)
Definition standard_library : heap :=
  list_to_map
    [ (object_prototype,
       Obj None VNull true
         (<[ "__proto__" := ProtoAccessor ]>
            (<[ "constructor" := Data (VRef 6%positive) true ]>
               (<[ "toString" := Data (VRef 7%positive) true ]>
                  (<[ "valueOf" := Data (VRef 8%positive) true ]>
                     {[ "hasOwnProperty" := Data (VRef 9%positive) true ]})))));
      (function_prototype,
       Obj (Some (Builtin "Function.prototype")) (VRef object_prototype) true
         (<[ "name" := Data (VStr "") false ]>
            {[ "length" := Data (VNum 0) false ]}));
      (number_prototype,
       Obj None (VRef object_prototype) true
         {[ "constructor" := Data (VRef 10%positive) true ]});
      (boolean_prototype,
       Obj None (VRef object_prototype) true
         {[ "constructor" := Data (VRef 11%positive) true ]});
      (string_prototype,
       Obj None (VRef object_prototype) true
         (<[ "constructor" := Data (VRef 12%positive) true ]>
            {[ "length" := Data (VNum 0) false ]}));
      (6%positive, builtin_constructor "Object" object_prototype);
      (7%positive, builtin_function "toString" 0);
      (8%positive, builtin_function "valueOf" 0);
      (9%positive, builtin_function "hasOwnProperty" 1);
      (10%positive, builtin_constructor "Number" number_prototype);
      (11%positive, builtin_constructor "Boolean" boolean_prototype);
      (12%positive, builtin_constructor "String" string_prototype) ].

(** An object written as a literal: its prototype is [Object.prototype]
    and its properties can be assigned to. *)
Definition literal (props : gmap string value) : object :=
  Obj None (VRef object_prototype) true ((fun v => Data v true) <$> props).

Definition root : value := VRef 20%positive.

(** [{}] *)
Definition graph_empty : heap :=
  <[ 20%positive := empty_object ]> standard_library.

(** [{ "a.b": x }], one key whose name contains a dot. *)
Definition graph_dotted_key (x : value) : heap :=
  <[ 20%positive := literal {[ "a.b" := x ]} ]> standard_library.

(** [{ a: { b: 2 } }] *)
Definition graph_a_b_2 : heap :=
  <[ 21%positive := literal {[ "b" := VNum 2 ]} ]>
    (<[ 20%positive := literal {[ "a" := VRef 21%positive ]} ]> standard_library).

(** [{ a: { b: { c: 1 } } }] *)
Definition graph_a_b_c_1 : heap :=
  <[ 22%positive := literal {[ "c" := VNum 1 ]} ]>
    (<[ 21%positive := literal {[ "b" := VRef 22%positive ]} ]>
       (<[ 20%positive := literal {[ "a" := VRef 21%positive ]} ]> standard_library)).

(** [{ a: 5 }] *)
Definition graph_a_5 : heap :=
  <[ 20%positive := literal {[ "a" := VNum 5 ]} ]> standard_library.


(** [function () { return this.x; }] *)
Definition return_this_x : callable :=
  Native (fun read this => read this "x").

(** The function object of [function () { return this.x; }] held under
    the key [fn], with its own [prototype] at [prototype]. *)
Definition return_this_x_object (prototype : loc) : object :=
  Obj (Some return_this_x) (VRef function_prototype) true
    (<[ "prototype" := Data (VRef prototype) true ]>
       (<[ "name" := Data (VStr "fn") false ]>
          {[ "length" := Data (VNum 0) false ]})).

(** [{ ns: { sub: { fn: function () { return this.x; }, x: 5 } } }] at
    address 20, and a global object without [x] at address 30. *)
Definition graph_ns_sub_fn : heap :=
  <[ 30%positive := empty_object ]>
    (<[ 24%positive := literal {[ "constructor" := VRef 23%positive ]} ]>
       (<[ 23%positive := return_this_x_object 24%positive ]>
          (<[ 22%positive :=
                literal (<[ "x" := VNum 5 ]> {[ "fn" := VRef 23%positive ]}) ]>
             (<[ 21%positive := literal {[ "sub" := VRef 22%positive ]} ]>
                (<[ 20%positive := literal {[ "ns" := VRef 21%positive ]} ]>
                   standard_library))))).

Definition global_object : value := VRef 30%positive.




(** An object that is its own property [a]. *)
Definition graph_a_cycle : heap :=
  <[ 20%positive := literal {[ "a" := root ]} ]> standard_library.

(** [{ "a.b": { x: 1 }, a: { b: { fn: function () { return this.x; }, x: 5 } } }] *)
Definition graph_dotted_key_and_fn : heap :=
  <[ 30%positive := empty_object ]>
    (<[ 25%positive := literal {[ "x" := VNum 1 ]} ]>
       (<[ 24%positive := literal {[ "constructor" := VRef 23%positive ]} ]>
          (<[ 23%positive := return_this_x_object 24%positive ]>
             (<[ 22%positive :=
                   literal (<[ "x" := VNum 5 ]> {[ "fn" := VRef 23%positive ]}) ]>
                (<[ 21%positive := literal {[ "b" := VRef 22%positive ]} ]>
                   (<[ 20%positive :=
                         literal (<[ "a.b" := VRef 25%positive ]>
                                    {[ "a" := VRef 21%positive ]}) ]>
                      standard_library)))))).

(** A global object that holds [fn: function () { return this.x; }] and
    [x: 5] itself, at address 30. *)
Definition graph_global_fn : heap :=
  <[ 30%positive :=
       literal (<[ "x" := VNum 5 ]> {[ "fn" := VRef 23%positive ]}) ]>
    (<[ 24%positive := literal {[ "constructor" := VRef 23%positive ]} ]>
       (<[ 23%positive := return_this_x_object 24%positive ]> standard_library)).

(** The scenarios call no function of the standard library: where one
    has to be given, each of them answers [undefined]. *)
Definition builtin_undefined
  : string → (value → string → completion value) → value → completion value :=
  fun _ _ _ => Normal VUndefined.
(** ** Platforms *)

(** [device] is the global of the Cordova device plug-in: [None] where
    [typeof(device)] is "undefined", otherwise its [platform] string. *)
Section Platforms.
Variable device : option string.

Definition isAndroid : bool :=
  match device with
  | Some platform => String.eqb platform "Android"
  | None => false
  end.

Definition isIos : bool :=
  match device with
  | Some platform => String.eqb platform "iOS"
  | None => false
  end.

Definition isWindowsPhone8 : bool :=
  match device with
  | Some platform => String.eqb platform "WP8"
  | None => false
  end.

Definition isWindows8 : bool :=
  match device with
  | Some platform => String.eqb platform "Windows8"
  | None => false
  end.
End Platforms.

(** ** String manipulation *)

(** [s.substr(start)]: a negative [start] counts from the end of [s]. *)
Definition substr_from (s : string) (start : Z) : string :=
  let n := Z.of_nat (String.length s) in
  let from := if Z.ltb start 0 then Z.max (n + start)%Z 0 else Z.min start n in
  String.substring (Z.to_nat from) (Z.to_nat (n - from)%Z) s.

(** A string argument is [None] when it is [null] or [undefined]. *)
Definition endsWith (str suffix : option string) : bool :=
  match str with
  | None => false
  | Some str =>
      if String.eqb str "" then false
      else
        match suffix with
        | None => true
        | Some suffix =>
            if String.eqb suffix "" then true
            else
              String.eqb
                (substr_from str
                   (Z.of_nat (String.length str) - Z.of_nat (String.length suffix)))
                suffix
        end
  end.

Definition startsWith (str prefix : option string) : bool :=
  match str with
  | None => false
  | Some str =>
      if String.eqb str "" then false
      else
        match prefix with
        | None => true
        | Some prefix =>
            if String.eqb prefix "" then true
            else String.eqb (substr str 0 (Z.of_nat (String.length prefix))) prefix
        end
  end.

(** Character classes and case mappings, on ASCII code units. *)
Definition code (c : Ascii.ascii) : nat := Ascii.nat_of_ascii c.

Definition between (lo hi : nat) (c : Ascii.ascii) : bool :=
  (lo <=? code c)%nat && (code c <=? hi)%nat.

Definition is_ascii (c : Ascii.ascii) : bool := (code c <? 128)%nat.

Fixpoint ascii_only (s : string) : bool :=
  match s with
  | EmptyString => true
  | String c rest => is_ascii c && ascii_only rest
  end.

(** [\w]: a letter, a digit or the underscore. *)
Definition is_word_char (c : Ascii.ascii) : bool :=
  between 97 122 c || between 65 90 c || between 48 57 c || Ascii.eqb c "_".

(** [\s] on ASCII: tab, line feed, vertical tab, form feed, carriage
    return and space; [\S] is its complement. *)
Definition is_space_char (c : Ascii.ascii) : bool :=
  between 9 13 c || Ascii.eqb c " ".

Definition toUpperCase_char (c : Ascii.ascii) : Ascii.ascii :=
  if between 97 122 c then Ascii.ascii_of_nat (code c - 32) else c.

Definition toLowerCase_char (c : Ascii.ascii) : Ascii.ascii :=
  if between 65 90 c then Ascii.ascii_of_nat (code c + 32) else c.

(** [str.replace(/\w\S*/g, f)] with the callback of [toTitleCase], as a
    scan from left to right. Outside a match ([in_match = false]) a word
    character opens a match and is its [charAt(0)], upper-cased; any other
    character is copied. Inside a match every character that is not white
    space belongs to it and is lower-cased; white space ends the match. *)
Fixpoint title_scan (in_match : bool) (s : string) : string :=
  match s with
  | EmptyString => EmptyString
  | String c rest =>
      if in_match then
        if is_space_char c then String c (title_scan false rest)
        else String (toLowerCase_char c) (title_scan true rest)
      else
        if is_word_char c then String (toUpperCase_char c) (title_scan true rest)
        else String c (title_scan false rest)
  end.

Definition toTitleCase (str : option string) : string :=
  match str with
  | None => ""
  | Some str => if String.eqb str "" then "" else title_scan false str
  end.

(** The replacement text of [String.prototype.replace] for a pattern
    without capture groups: [$$] is a dollar sign, [$&] the matched text,
    [$`] what precedes the match and [$'] what follows it; any other
    dollar sign stands for itself. *)
Fixpoint expand_replacement (matched before after replacement : string) : string :=
  match replacement with
  | EmptyString => EmptyString
  | String c tl =>
      if Ascii.eqb c "$" then
        match tl with
        | EmptyString => String c EmptyString
        | String d rest =>
            if Ascii.eqb d "$" then String "$" (expand_replacement matched before after rest)
            else if Ascii.eqb d "&" then matched ++ expand_replacement matched before after rest
            else if Ascii.eqb d "`" then before ++ expand_replacement matched before after rest
            else if Ascii.eqb d "'" then after ++ expand_replacement matched before after rest
            else String c (expand_replacement matched before after tl)
        end
      else String c (expand_replacement matched before after tl)
  end.

(** [whole.replace(new RegExp(pattern, "gm"), replacement)] for a pattern
    that matches the literal text [pattern] only. [s] is what is left of
    [whole] from position [pos]; [skip] characters of it belong to the
    match just replaced. *)
Fixpoint replace_from (pattern replacement whole : string) (pos skip : nat)
    (s : string) : string :=
  match s with
  | EmptyString => EmptyString
  | String c rest =>
      match skip with
      | S skip' => replace_from pattern replacement whole (S pos) skip' rest
      | O =>
          if String.prefix pattern s then
            expand_replacement pattern (String.substring 0 pos whole)
              (String.substring (pos + String.length pattern)
                 (String.length whole - (pos + String.length pattern)) whole)
              replacement
            ++ replace_from pattern replacement whole (S pos)
                 (String.length pattern - 1) rest
          else String c (replace_from pattern replacement whole (S pos) O rest)
      end
  end.

Definition replace_all (pattern replacement whole : string) : string :=
  replace_from pattern replacement whole 0 0 whole.

(** The text matched by [new RegExp("\\{" + i + "\\}", "gm")]. *)
Definition placeholder (i : nat) : string := "{" ++ pretty i ++ "}".

(** The [for] loop of [format]; [args] are the arguments after the format
    string that are still to be processed, [i] the index of the first. *)
Fixpoint format_loop (i : nat) (args : list string) (formatString : string) : string :=
  match args with
  | [] => formatString
  | arg :: rest => format_loop (S i) rest (replace_all (placeholder i) arg formatString)
  end.

Definition format (formatString : string) (args : list string) : string :=
  format_loop 0 args formatString.

(** ** Misc *)

Definition hex_digits : string := "0123456789ABCDEF".

(** [n.toString(16).toUpperCase()]; [fuel] bounds the number of digits. *)
Fixpoint toString16_upper (fuel n : nat) : string :=
  let digit := String.substring (n mod 16) 1 hex_digits in
  match fuel with
  | O => digit
  | S fuel' => if (n <? 16)%nat then digit else toString16_upper fuel' (n / 16) ++ digit
  end.

(** The loop of [generateGuid] from iteration [j], with [count] iterations
    to go. [draw j] is the value of [Math.floor(Math.random() * 16)] in
    iteration [j]. *)
Fixpoint generateGuid_loop (draw : nat → nat) (count j : nat) (guid : string) : string :=
  match count with
  | O => guid
  | S count' =>
      let guid :=
        if (j =? 8)%nat || (j =? 12)%nat || (j =? 16)%nat || (j =? 20)%nat
        then guid ++ "-" else guid in
      let hexDigit := toString16_upper (draw j) (draw j) in
      generateGuid_loop draw count' (S j) (guid ++ hexDigit)
  end.

Definition generateGuid (draw : nat → nat) : string :=
  generateGuid_loop draw 32 0 "".

(** The view model of a category, as its constructor is called here:
    name, link, icon and position. *)
Record CategoryItemViewModel : Type := {
  name : string;
  href : string;
  icon : string;
  order : nat
}.

Definition default_categories : list CategoryItemViewModel :=
  [ {| name := "Category 1"; href := "#/app/category/1";
       icon := "ios-pricetags-outline"; order := 0 |};
    {| name := "Category 2"; href := "#/app/category/2";
       icon := "ios-pricetags-outline"; order := 1 |};
    {| name := "Category 3"; href := "#/app/category/3";
       icon := "ios-pricetags-outline"; order := 2 |};
    {| name := "Category 4"; href := "#/app/category/4";
       icon := "ios-pricetags-outline"; order := 3 |} ].

(** [_.where(categories, { name: categoryName })[0]] followed by the
    assignment [categoryItem.order = index]: the first item of that name,
    if there is one, takes the position. *)
Fixpoint assign_order (categoryName : string) (index : nat)
    (categories : list CategoryItemViewModel) : list CategoryItemViewModel :=
  match categories with
  | [] => []
  | categoryItem :: rest =>
      if String.eqb (name categoryItem) categoryName
      then {| name := name categoryItem; href := href categoryItem;
              icon := icon categoryItem; order := index |} :: rest
      else categoryItem :: assign_order categoryName index rest
  end.

(** [categoryOrder.forEach], from position [index] on. *)
Fixpoint apply_categoryOrder (categoryOrder : list string) (index : nat)
    (categories : list CategoryItemViewModel) : list CategoryItemViewModel :=
  match categoryOrder with
  | [] => categories
  | categoryName :: rest =>
      apply_categoryOrder rest (S index) (assign_order categoryName index categories)
  end.

(** [_.sortBy(list, "order")] of the Underscore library, which is not part
    of the sources: a stable sort in ascending order of the [order]
    field. *)
Fixpoint insert_by_order (x : CategoryItemViewModel)
    (sorted : list CategoryItemViewModel) : list CategoryItemViewModel :=
  match sorted with
  | [] => [x]
  | y :: rest =>
      if (order x <=? order y)%nat then x :: y :: rest
      else y :: insert_by_order x rest
  end.

Fixpoint sortBy_order (l : list CategoryItemViewModel) : list CategoryItemViewModel :=
  match l with
  | [] => []
  | x :: rest => insert_by_order x (sortBy_order rest)
  end.

(** [categoryOrder] is [Preferences.categoryOrder], [None] when it is not
    set. *)
Definition categories (categoryOrder : option (list string))
  : list CategoryItemViewModel :=
  let categories :=
    match categoryOrder with
    | Some categoryOrder => apply_categoryOrder categoryOrder 0 default_categories
    | None => default_categories
    end in
  sortBy_order categories.

(** [this.categories[0]] *)
Definition defaultCategory (categoryOrder : option (list string))
  : option CategoryItemViewModel :=
  head (categories categoryOrder).

(** No lower-case letter stands at the start of the string or right
    after white space; [at_start] tells whether [s] begins at such a
    place. *)
Fixpoint capitalized_starts (at_start : bool) (s : string) : bool :=
  match s with
  | EmptyString => true
  | String c rest =>
      negb (at_start && between 97 122 c) && capitalized_starts (is_space_char c) rest
  end.

(** A digit or a letter from A to F. *)
Definition is_hex_upper (c : Ascii.ascii) : bool :=
  between 48 57 c || between 65 70 c.

(** What identifies a category, its position left aside. *)
Definition category_identity (c : CategoryItemViewModel) : string * string * string :=
  (name c, href c, icon c).

(** Whether the character [x] occurs in [s]. *)
Fixpoint contains_char (x : Ascii.ascii) (s : string) : bool :=
  match s with
  | EmptyString => false
  | String c rest => Ascii.eqb c x || contains_char x rest
  end.

Fixpoint all_digits (s : string) : bool :=
  match s with
  | EmptyString => true
  | String c rest => between 48 57 c && all_digits rest
  end.

(** * Properties *)

(** ** Completions *)

Lemma bind_Normal {A B} (a : A) (k : A → completion B) :
  (Normal a ≫= k) = k a.
Proof. reflexivity. Qed.

Lemma bind_Throw {A B} (e : error) (k : A → completion B) :
  (Throw e ≫= k) = Throw e.
Proof. reflexivity. Qed.

(** ** Truth and absence *)

Lemma truthy_not_nullish v : truthy v = true → is_nullish v = false.
Proof. by destruct v. Qed.

Lemma nullish_not_truthy v : is_nullish v = true → truthy v = false.
Proof. by destruct v. Qed.

Lemma absent_as_null_truthy v : truthy v = true → absent_as_null v = v.
Proof. intros Hv. unfold absent_as_null. by rewrite truthy_not_nullish. Qed.

Lemma absent_as_null_nullish v : is_nullish v = true → absent_as_null v = VNull.
Proof. intros Hv. unfold absent_as_null. by rewrite Hv. Qed.

(** ** Tokens *)

Lemma split_dot_not_nil s : split_dot s ≠ [].
Proof.
  destruct s as [|c s]; simpl; [done|].
  destruct (is_dot c); [done|]. by destruct (split_dot s).
Qed.



Lemma split_dot_plain s : has_dot s = false → split_dot s = [s].
Proof.
  induction s as [|c s IH]; simpl; [done|].
  destruct (is_dot c); simpl; [done|].
  intros Hs. by rewrite (IH Hs).
Qed.

Lemma split_dot_app_dot prefix last :
  has_dot last = false →
  split_dot (prefix ++ String "." last) = (split_dot prefix ++ [last])%list.
Proof.
  intros Hlast. induction prefix as [|c p IH]; simpl.
  - by rewrite (split_dot_plain _ Hlast).
  - destruct (is_dot c); [by rewrite IH|].
    rewrite IH. pose proof (split_dot_not_nil p).
    by destruct (split_dot p).
Qed.

Lemma indexOf_from_has_dot (i : Z) (s : string) :
  (0 ≤ i)%Z → (indexOf_from i s >? -1) = has_dot s.
Proof.
  revert i. induction s as [|c s IH]; intros i Hi; simpl; [done|].
  destruct (is_dot c); simpl.
  - apply Z.gtb_lt. lia.
  - apply IH. lia.
Qed.

Lemma indexOf_dot_has_dot s : (indexOf_dot s >? -1) = has_dot s.
Proof. by apply indexOf_from_has_dot. Qed.

Lemma lastIndexOf_from_pos (i found : Z) (s : string) :
  lastIndexOf_from i found s =
    match last_dot_pos s with
    | Some n => i + Z.of_nat n
    | None => found
    end.
Proof.
  revert i found. induction s as [|c s IH]; intros i found; simpl; [done|].
  rewrite IH. destruct (last_dot_pos s) as [n|].
  - lia.
  - destruct (is_dot c); [lia | done].
Qed.

Lemma last_dot_pos_plain s : has_dot s = false → last_dot_pos s = None.
Proof.
  induction s as [|c s IH]; simpl; [done|].
  intros [Hc Hs]%orb_false_elim. by rewrite (IH Hs), Hc.
Qed.

Lemma last_dot_pos_app prefix last :
  has_dot last = false →
  last_dot_pos (prefix ++ String "." last) = Some (String.length prefix).
Proof.
  intros Hlast. induction prefix as [|c p IH]; simpl.
  - by rewrite (last_dot_pos_plain _ Hlast).
  - by rewrite IH.
Qed.

Lemma substring_prefix prefix rest :
  String.substring 0 (String.length prefix) (prefix ++ rest) = prefix.
Proof.
  induction prefix as [|c p IH]; simpl.
  - by destruct rest.
  - by rewrite IH.
Qed.

(** The context path computed by [getFunction] is what precedes the last
    dot. *)
Lemma context_path_prefix prefix last :
  has_dot last = false →
  substr (prefix ++ String "." last) 0 (lastIndexOf_dot (prefix ++ String "." last))
  = prefix.
Proof.
  intros Hlast. unfold substr, lastIndexOf_dot.
  rewrite lastIndexOf_from_pos, (last_dot_pos_app _ _ Hlast).
  rewrite Z.add_0_l, Nat2Z.id. simpl (Z.to_nat 0). apply substring_prefix.
Qed.

Lemma has_dot_app_dot prefix last : has_dot (prefix ++ String "." last) = true.
Proof. induction prefix as [|c p IH]; simpl; [done|]. rewrite IH. apply orb_true_r. Qed.


(** ** Reading *)

Lemma get_prop_Normal h v k :
  is_nullish v = false → ∃ w, get_prop h v k = Normal w.
Proof.
  destruct v as [| | | |s|l]; simpl; try done; eauto.
  destruct (string_prop s k); eauto.
Qed.

Lemma descend_nullish h v tokens :
  is_nullish v = true → is_nullish (descend h v tokens) = true.
Proof. destruct tokens; destruct v; simpl; done. Qed.

Lemma descend_app h v pre post :
  descend h v (pre ++ post) = descend h (descend h v pre) post.
Proof.
  revert v. induction pre as [|t pre IH]; intros v; simpl; [done|].
  destruct (get_prop h v t) as [w|e]; [apply IH|].
  destruct post; simpl; done.
Qed.

Lemma descend_cons h object t rest w :
  get_prop h object t = Normal w →
  descend h object (t :: rest) = descend h w rest.
Proof. intros Hw. simpl. by rewrite Hw. Qed.

Lemma getValue_loop_cons h object k rest :
  getValue_loop h object (k :: rest)
  = (object' ← get_prop h object k;
     if is_nullish object' then Normal VNull else getValue_loop h object' rest).
Proof. reflexivity. Qed.

(** The loop of [getValue] computes the chain, with [null] for absent. *)
Lemma getValue_loop_descend h object tokens :
  is_nullish object = false →
  getValue_loop h object tokens = Normal (absent_as_null (descend h object tokens)).
Proof.
  revert object. induction tokens as [|t rest IH]; intros object Hobj.
  - simpl. unfold absent_as_null. by rewrite Hobj.
  - destruct (get_prop_Normal h object t Hobj) as [w Hw].
    rewrite getValue_loop_cons, (descend_cons _ _ _ _ _ Hw), Hw, bind_Normal.
    destruct (is_nullish w) eqn:Hn.
    + by rewrite absent_as_null_nullish by by apply descend_nullish.
    + by apply IH.
Qed.

(** [getValue] in one equation. *)
Lemma getValue_unfold h object ps :
  truthy object = true → ps ≠ "" →
  getValue h object (Some ps) =
    Normal (if truthy (descend h object [ps]) then descend h object [ps]
            else absent_as_null (descend h object (split_dot ps))).
Proof.
  intros Hobj Hps. unfold getValue. rewrite Hobj. simpl negb. cbv iota.
  destruct (String.eqb_spec ps ""); [done|].
  pose proof (truthy_not_nullish _ Hobj) as Hn.
  destruct (get_prop_Normal h object ps Hn) as [w Hw].
  rewrite (descend_cons _ _ _ [] _ Hw), Hw, bind_Normal. simpl descend.
  destruct (truthy w); [done|]. by apply getValue_loop_descend.
Qed.

(** [getValue] never throws. *)
Lemma getValue_total h object propertyString :
  ∃ v, getValue h object propertyString = Normal v.
Proof.
  unfold getValue. destruct (truthy object) eqn:Hobj; simpl; [|eauto].
  destruct propertyString as [ps|]; [|eauto].
  destruct (String.eqb ps ""); [eauto|].
  pose proof (truthy_not_nullish _ Hobj) as Hn.
  destruct (get_prop_Normal h object ps Hn) as [w Hw]. rewrite Hw, bind_Normal.
  destruct (truthy w); [eauto|]. rewrite getValue_loop_descend by done. eauto.
Qed.


(** Where no exact key answers first, what [getValue] finds at
    "prefix.last" is the property [last] of what it finds at "prefix". *)
Lemma getValue_owner h object prefix last fn :
  prefix ≠ "" → has_dot last = false →
  no_direct_hit h object (prefix ++ String "." last) = true →
  no_direct_hit h object prefix = true →
  getValue h object (Some (prefix ++ String "." last)) = Normal fn →
  truthy fn = true →
  ∃ context, getValue h object (Some prefix) = Normal context
             ∧ descend h context [last] = fn.
Proof.
  intros Hprefix Hlast Hps Hpre Hfn Htruthy.
  destruct (truthy object) eqn:Hobj.
  2: { unfold getValue in Hfn. rewrite Hobj in Hfn. injection Hfn as <-. done. }
  unfold no_direct_hit in Hps, Hpre. apply negb_true_iff in Hps, Hpre.
  rewrite getValue_unfold in Hfn; [|done|by destruct prefix].
  rewrite Hps, split_dot_app_dot, descend_app in Hfn by done.
  injection Hfn as Hfn.
  rewrite getValue_unfold, Hpre by done.
  set (context := descend h object (split_dot prefix)) in *.
  change (absent_as_null (descend h context [last]) = fn) in Hfn.
  assert (Hlastv : is_nullish (descend h context [last]) = false).
  { destruct (is_nullish (descend h context [last])) eqn:Hn; [|done].
    rewrite absent_as_null_nullish in Hfn by done. by subst fn. }
  assert (Hcontext : is_nullish context = false).
  { destruct (is_nullish context) eqn:Hn; [|done].
    by rewrite descend_nullish in Hlastv. }
  exists context. unfold absent_as_null in *.
  rewrite Hcontext. split; [done|]. by rewrite Hlastv in Hfn.
Qed.

(** A chain that is cut short by [null] or an absent value. *)
Lemma getValue_chain_nullish h object ps pre post :
  no_direct_hit h object ps = true →
  split_dot ps = (pre ++ post)%list →
  is_nullish (descend h object pre) = true →
  getValue h object (Some ps) = Normal VNull.
Proof.
  intros Hdirect Hsplit Hnull.
  destruct (truthy object) eqn:Hobj; [|unfold getValue; by rewrite Hobj].
  destruct (String.eqb_spec ps "") as [->|Hps];
    [unfold getValue; by rewrite Hobj|].
  rewrite getValue_unfold by done.
  unfold no_direct_hit in Hdirect. apply negb_true_iff in Hdirect.
  rewrite Hdirect, Hsplit, descend_app.
  by rewrite absent_as_null_nullish by by apply descend_nullish.
Qed.

(** ** getValue: degradation to null *)

(** C4, as amended. [getValue] returns null when the root is null or
    absent (or any other falsy value), when the path is null or the empty
    string, and when an intermediate segment resolves to null or to nothing
    before the final segment, provided the root holds no truthy value under
    the whole path string as a key: the exact-key test comes first. *)
Theorem getValue_null_degradation h object propertyString :
  truthy object = false
  ∨ propertyString = None
  ∨ propertyString = Some ""
  ∨ (∃ ps, propertyString = Some ps ∧ no_direct_hit h object ps = true
           ∧ segment_unresolved h object ps) →
  getValue h object propertyString = Normal VNull.
Proof.
  intros [Hobj|[->|[->|(ps & -> & Hdirect & pre & post & Hsplit & Hpre & Hpost & Hnull)]]].
  - unfold getValue. by rewrite Hobj.
  - unfold getValue. by destruct (truthy object).
  - unfold getValue. by destruct (truthy object).
  - by apply (getValue_chain_nullish h object ps pre post).
Qed.

Lemma getValue_null_degradation_witness :
  getValue graph_a_5 root (Some "b.c") = Normal VNull.
Proof.
  apply getValue_null_degradation. right. right. right.
  exists "b.c". split; [reflexivity|]. split; [vm_compute; reflexivity|].
  exists ["b"], ["c"].
  split; [reflexivity|]. split; [discriminate|]. split; [discriminate|].
  vm_compute. reflexivity.
Defined.

(** The claim as stated fails where the exact-key test succeeds: in
    [{ "a.b": 5 }] the intermediate segment [a] of the path "a.b" resolves
    to nothing, and [getValue] returns 5. *)
Lemma getValue_null_degradation_counterexample :
  segment_unresolved (graph_dotted_key (VNum 5)) root "a.b"
  ∧ getValue (graph_dotted_key (VNum 5)) root (Some "a.b") = Normal (VNum 5)
  ∧ getValue (graph_dotted_key (VNum 5)) root (Some "a.b") ≠ Normal VNull.
Proof.
  split; [|split].
  - exists ["a"], ["b"].
    split; [reflexivity|]. split; [discriminate|]. split; [discriminate|].
    vm_compute. reflexivity.
  - vm_compute. reflexivity.
  - vm_compute. discriminate.
Qed.

(** ** getValue: descent past a scalar *)




(** A number has properties too, those it inherits: in [{ a: { b: 2 } }]
    the path "a.b.constructor.name" leads to the name of [Number]; and in
    [{}] the path "constructor.name" leads to the name of [Object]. *)
Lemma getValue_inherited_members :
  getValue graph_a_b_2 root (Some "a.b.constructor.name") = Normal (VStr "Number")
  ∧ getValue graph_empty root (Some "constructor.name") = Normal (VStr "Object")
  ∧ getValue graph_empty root (Some "toString") = Normal (VRef 7%positive)
  ∧ getValue graph_empty root (Some "__proto__") = Normal (VRef object_prototype).
Proof. repeat split; vm_compute; reflexivity. Qed.

(** ** getValue: the exact-key test *)

(** C2, at the failing input. In [{ "a.b": 0 }] the key "a.b" holds 0, yet
    [getValue] answers null: the exact-key test looks at the truth of the
    stored value, not at its presence, and the token walk then finds no
    [a]. *)
Theorem getValue_exact_key_falsy :
  descend (graph_dotted_key (VNum 0)) root ["a.b"] = VNum 0
  ∧ getValue (graph_dotted_key (VNum 0)) root (Some "a.b") = Normal VNull.
Proof. split; vm_compute; reflexivity. Qed.

(** The token walk, by contrast, returns a stored 0. *)
Lemma getValue_token_walk_keeps_zero :
  getValue (<[ 20%positive := literal {[ "a" := VNum 0 ]} ]> standard_library)
    root (Some "a")
  = Normal (VNum 0).
Proof. vm_compute. reflexivity. Qed.

(** ** Own properties and the prototype chain *)


Lemma find_property_own h l k p :
  own_slot h l k = Some p → find_property h l k = Some p.
Proof.
  unfold own_slot, find_property. simpl.
  destruct (h !! l) as [o|]; [|done]. simpl. by intros ->.
Qed.

(** An own data property is what reading the object yields. *)
Lemma get_prop_own h l k x w :
  own_slot h l k = Some (Data x w) → get_prop h (VRef l) k = Normal x.
Proof. intros Hown. simpl. by rewrite (find_property_own _ _ _ _ Hown). Qed.












(** ** Writing *)

Lemma put_prop_scalar h s k v : is_scalar s = true → put_prop h s k v = Normal h.
Proof. by destruct s. Qed.

Lemma put_prop_assignable h l o k v :
  h !! l = Some o → assignable h l k = true →
  put_prop h (VRef l) k v = Normal (<[l := with_property o k v]> h).
Proof.
  intros Hl. unfold assignable. simpl. rewrite Hl.
  destruct (obj_props o !! k) as [[x [|]| ]|]; try done.
  destruct (obj_extensible o); [|done]. simpl.
  by destruct (inherited h o k) as [[y [|]| ]|].
Qed.


Lemma own_slot_put_other h l o k v l' k' :
  h !! l = Some o → (l', k') ≠ (l, k) →
  own_slot (<[l := with_property o k v]> h) l' k' = own_slot h l' k'.
Proof.
  intros Hl Hne. unfold own_slot.
  destruct (decide (l = l')) as [<-|Hll].
  - rewrite lookup_insert_eq, Hl. simpl.
    rewrite lookup_insert_ne; [done|]. congruence.
  - by rewrite lookup_insert_ne.
Qed.

Lemma new_loc_not_allocated (h : heap) : h !! new_loc h = None.
Proof.
  apply not_elem_of_dom. intros Hin.
  apply (is_fresh (dom h ∪ builtin_locs)), elem_of_union. by left.
Qed.


Lemma alloc_keeps_objects (h : heap) o0 l o :
  h !! l = Some o → <[new_loc h := o0]> h !! l = Some o.
Proof.
  intros Hl. rewrite lookup_insert_ne; [done|].
  intros Heq. by rewrite <- Heq, new_loc_not_allocated in Hl.
Qed.

Lemma own_slot_alloc h l k :
  own_slot (<[new_loc h := empty_object]> h) l k = own_slot h l k.
Proof.
  unfold own_slot. destruct (decide (new_loc h = l)) as [<-|Hne].
  - by rewrite lookup_insert_eq, new_loc_not_allocated.
  - by rewrite lookup_insert_ne.
Qed.

(** The setter of [__proto__] changes no own property. *)
Lemma set_prototype_own_slot h l o v h' l' k :
  h !! l = Some o → set_prototype h l o v = Normal h' →
  own_slot h' l' k = own_slot h l' k.
Proof.
  intros Hl Hset. unfold set_prototype in Hset.
  assert (Hstore :
    own_slot (<[l := Obj (obj_call o) v (obj_extensible o) (obj_props o)]> h) l' k
    = own_slot h l' k).
  { unfold own_slot. destruct (decide (l = l')) as [<-|Hne].
    - by rewrite lookup_insert_eq, Hl.
    - by rewrite lookup_insert_ne. }
  destruct v as [| | | | |lv]; try (by injection Hset as <-);
    (destruct (decide (_ = obj_proto o)); [by injection Hset as <-|];
     destruct (negb (obj_extensible o) || bool_decide (l = object_prototype)); [done|];
     destruct (proto_reaches _ _ _ _); [done|]; by injection Hset as <-).
Qed.

(** An assignment changes no property of another name. *)
Lemma put_prop_frame_key h object t v h' l k :
  put_prop h object t v = Normal h' → k ≠ t →
  own_slot h' l k = own_slot h l k.
Proof.
  intros Hput Hk. destruct object as [| | | | |lo]; simpl in Hput; try done;
    try (by injection Hput as <-).
  destruct (h !! lo) as [o|] eqn:Hlo; [|by injection Hput as <-].
  assert (Hstore : own_slot (<[lo := with_property o t v]> h) l k = own_slot h l k).
  { apply own_slot_put_other; [done|congruence]. }
  destruct (obj_props o !! t) as [[x [|]| ]|].
  - by injection Hput as <-.
  - by injection Hput as <-.
  - by apply (set_prototype_own_slot _ _ _ _ _ _ _ Hlo Hput).
  - destruct (inherited h o t) as [[y [|]| ]|].
    + destruct (obj_extensible o); by injection Hput as <-.
    + by injection Hput as <-.
    + by apply (set_prototype_own_slot _ _ _ _ _ _ _ Hlo Hput).
    + destruct (obj_extensible o); by injection Hput as <-.
Qed.

Lemma setValue_loop_last v inst h object k :
  setValue_loop v inst h object [k] = put_prop h object k v.
Proof. reflexivity. Qed.

Lemma setValue_loop_cons v inst h object k k2 rest :
  setValue_loop v inst h object (k :: k2 :: rest)
  = (current ← get_prop h object k;
     if truthy current then setValue_loop v inst h current (k2 :: rest)
     else if inst then
       let (h1, fresh_object) := alloc h empty_object in
       h2 ← put_prop h1 object k fresh_object;
       object' ← get_prop h2 object k;
       setValue_loop v inst h2 object' (k2 :: rest)
     else Normal h).
Proof. reflexivity. Qed.

(** [setValue] assigns only to properties named by a token of the path. *)
Lemma setValue_loop_frame_key v inst tokens : ∀ h object h' l k,
  setValue_loop v inst h object tokens = Normal h' →
  k ∉ tokens →
  own_slot h' l k = own_slot h l k.
Proof.
  induction tokens as [|t rest IH]; intros h object h' l k Hset Hk.
  { simpl in Hset. by injection Hset as <-. }
  apply not_elem_of_cons in Hk as [Hkt Hk].
  destruct rest as [|t2 rest].
  { rewrite setValue_loop_last in Hset. by apply (put_prop_frame_key _ _ _ _ _ _ _ Hset). }
  rewrite setValue_loop_cons in Hset.
  destruct (get_prop h object t) as [current|e]; [|done].
  rewrite bind_Normal in Hset.
  destruct (truthy current); [by apply (IH _ _ _ _ _ Hset)|].
  destruct inst; [|by injection Hset as <-].
  unfold alloc in Hset.
  destruct (put_prop _ object t _) as [h2|e] eqn:Hput; [|done].
  rewrite bind_Normal in Hset.
  destruct (get_prop h2 object t) as [object'|e]; [|done].
  rewrite bind_Normal in Hset.
  rewrite (IH _ _ _ _ _ Hset Hk).
  rewrite (put_prop_frame_key _ _ _ _ _ _ _ Hput Hkt).
  apply own_slot_alloc.
Qed.

(** ** setValue without the instantiate flag *)

Section SetValueLoop.
Variable v : value.

Lemma truthy_walk_truthy h tokens : ∀ object w,
  truthy_walk h object tokens = Some w → truthy object = true ∧ truthy w = true.
Proof.
  induction tokens as [|t rest IH]; intros object w Hw; simpl in Hw;
    destruct (truthy object) eqn:Hobj; try done.
  - by injection Hw as <-.
  - destruct (get_prop h object t) as [x|e]; [|done].
    split; [done|]. by apply (IH x).
Qed.

(** Along truthy values the loop only moves on. *)
Lemma setValue_loop_walk inst h pre : ∀ object post w,
  post ≠ [] →
  truthy_walk h object pre = Some w →
  setValue_loop v inst h object (pre ++ post) = setValue_loop v inst h w post.
Proof.
  induction pre as [|t pre IH]; intros object post w Hpost Hw.
  - simpl in Hw. destruct (truthy object); [|done]. by injection Hw as <-.
  - simpl in Hw. destruct (truthy object); [|done].
    destruct (get_prop h object t) as [x|e] eqn:Hx; [|done].
    change ((t :: pre) ++ post)%list with (t :: (pre ++ post))%list.
    destruct (pre ++ post)%list as [|t2 rest] eqn:Happ.
    { apply app_eq_nil in Happ as [_ ?]. done. }
    rewrite setValue_loop_cons, Hx, bind_Normal.
    rewrite (proj1 (truthy_walk_truthy _ _ _ _ Hw)).
    rewrite <- Happ. by apply IH.
Qed.

(** Without the flag, the loop returns at the first segment that is
    not truthy, before any assignment. *)
Lemma setValue_loop_abort h pre : ∀ object post,
  pre ≠ [] → post ≠ [] →
  truthy object = true →
  is_nullish (descend h object pre) = true →
  setValue_loop v false h object (pre ++ post) = Normal h.
Proof.
  induction pre as [|t pre IH]; intros object post Hpre Hpost Hobj Hd; [done|].
  change ((t :: pre) ++ post)%list with (t :: (pre ++ post))%list.
  destruct (get_prop_Normal h object t (truthy_not_nullish _ Hobj)) as [w Hw].
  rewrite (descend_cons _ _ _ _ _ Hw) in Hd.
  destruct (pre ++ post)%list as [|t2 rest] eqn:Happ.
  { apply app_eq_nil in Happ as [_ ?]. done. }
  rewrite setValue_loop_cons, Hw, bind_Normal.
  rewrite <- Happ.
  destruct (truthy w) eqn:Htw; [|done].
  destruct pre as [|t' pre].
  { simpl in Hd. by rewrite (truthy_not_nullish _ Htw) in Hd. }
  by apply IH.
Qed.
End SetValueLoop.

(** C3, as amended. With [instantiate = false], whenever an intermediate
    segment of the path resolves to null or to nothing, read as the code
    reads it, inherited members included, [setValue] completes normally
    and leaves the store as it was: no intermediate object is created and
    the value is not assigned. *)
Theorem setValue_no_instantiate_noop h object ps v pre post :
  split_dot ps = (pre ++ post)%list → pre ≠ [] → post ≠ [] →
  is_nullish (descend h object pre) = true →
  setValue h object (Some ps) v (Some false) = Normal h.
Proof.
  intros Hsplit Hpre Hpost Hnull. unfold setValue.
  destruct (truthy object) eqn:Hobj; [|done]. simpl.
  destruct (String.eqb ps ""); [done|].
  rewrite Hsplit. by apply setValue_loop_abort.
Qed.

Lemma setValue_no_instantiate_noop_witness :
  setValue graph_a_b_2 root (Some "a.x.y.z") (VNum 7) (Some false)
  = Normal graph_a_b_2.
Proof.
  apply (setValue_no_instantiate_noop graph_a_b_2 root "a.x.y.z" (VNum 7)
           ["a"; "x"] ["y"; "z"]).
  - reflexivity.
  - discriminate.
  - discriminate.
  - vm_compute. reflexivity.
Defined.

(** The claim as stated fails for a segment that the root does not hold
    but inherits. The object [{}] has no property [__proto__] of its own;
    with [instantiate = false], setting "__proto__.polluted" steps into
    [Object.prototype] and assigns there: the value is written, and from
    then on the root reads it under [polluted]. *)
Lemma setValue_no_instantiate_noop_counterexample :
  own_slot graph_empty 20%positive "__proto__" = None
  ∧ getValue graph_empty root (Some "polluted") = Normal VNull
  ∧ ∃ h', setValue graph_empty root (Some "__proto__.polluted") (VNum 1) (Some false)
          = Normal h'
          ∧ slot_value h' object_prototype "polluted" = VNum 1
          ∧ getValue h' root (Some "polluted") = Normal (VNum 1).
Proof.
  split; [vm_compute; reflexivity|]. split; [vm_compute; reflexivity|].
  eexists. split; [vm_compute; reflexivity|].
  split; vm_compute; reflexivity.
Qed.

(** ** setValue through a scalar *)

(** When the walk reaches a scalar with one token left, the assignment
    is made on the scalar and dropped: the store stays as it was. *)
Lemma setValue_onto_scalar h object ps v instantiate pre k s :
  split_dot ps = (pre ++ [k])%list →
  truthy_walk h object pre = Some s → is_scalar s = true →
  setValue h object (Some ps) v instantiate = Normal h.
Proof.
  intros Hsplit Hwalk Hscalar. unfold setValue.
  destruct (truthy object) eqn:Hobj; [|done]. simpl.
  destruct (String.eqb ps ""); [done|].
  rewrite Hsplit, (setValue_loop_walk _ _ _ _ _ _ s) by done.
  rewrite setValue_loop_last. by apply put_prop_scalar.
Qed.

(** C10, at the failing input. In [{ a: 5 }] the segment [a] of the path
    "a.b.c" resolves to the truthy scalar 5. With the flag set or left
    out, [setValue] does not complete: the assignment of [{}] to [5.b] is
    dropped, the loop variable becomes the absent [5.b], and the final
    assignment throws a TypeError. *)
Theorem setValue_through_scalar_throws :
  truthy_walk graph_a_5 root ["a"] = Some (VNum 5)
  ∧ setValue graph_a_5 root (Some "a.b.c") (VNum 7) (Some true) = Throw TypeError
  ∧ setValue graph_a_5 root (Some "a.b.c") (VNum 7) None = Throw TypeError.
Proof. repeat split; vm_compute; reflexivity. Qed.

(** With one token after the scalar, or without the flag, nothing is
    thrown and nothing is written. *)
Lemma setValue_through_scalar_unchanged :
  setValue graph_a_5 root (Some "a.b") (VNum 7) (Some true) = Normal graph_a_5
  ∧ setValue graph_a_5 root (Some "a.b") (VNum 7) (Some false) = Normal graph_a_5
  ∧ setValue graph_a_5 root (Some "a.b.c") (VNum 7) (Some false) = Normal graph_a_5.
Proof. repeat split; vm_compute; reflexivity. Qed.

(** ** setValue creates what is missing *)

(** C5. On the empty object, setting "a.b.c" to 1 with [instantiate = true]
    creates an object for [a], one for [b] inside it, and assigns 1 to [c]
    in the innermost: the store is that of [{ a: { b: { c: 1 } } }]. *)
Theorem setValue_creates_intermediates :
  setValue graph_empty root (Some "a.b.c") (VNum 1) (Some true)
  = Normal graph_a_b_c_1.
Proof. vm_compute. reflexivity. Qed.

(** ** Round trip *)











Section RoundTrip.
Variable v : value.



End RoundTrip.

(** ** getValue after setValue *)




(** The other provisos are needed as well. Through a truthy scalar
    nothing is written: *)
Lemma round_trip_fails_through_scalar :
  ¬ round_trips graph_a_5 root "a.b" (VNum 7) true.
Proof.
  intros (h' & Hset & Hget).
  vm_compute in Hset. injection Hset as <-.
  vm_compute in Hget. discriminate.
Qed.

(** where the root is its own property [a], setting "a.a" overwrites
    the property the path walks through: *)
Lemma round_trip_fails_on_cycle :
  ¬ round_trips graph_a_cycle root "a.a" (VNum 7) true.
Proof.
  intros (h' & Hset & Hget).
  vm_compute in Hset. injection Hset as <-.
  vm_compute in Hget. discriminate.
Qed.

(** and what an object inherits stands in the way: on [{}], the
    assignment to [__proto__] runs the setter, which ignores a number, and
    the assignment to [constructor.name] is made on [Object], whose name
    cannot be assigned to. *)
Lemma round_trip_fails_on_inherited :
  ¬ round_trips graph_empty root "__proto__" (VNum 7) true
  ∧ ¬ round_trips graph_empty root "constructor.name" (VStr "x") true.
Proof.
  split; intros (h' & Hset & Hget);
    vm_compute in Hset; injection Hset as <-;
    vm_compute in Hget; discriminate.
Qed.

(** What is assigned through an inherited member lands on the object that
    is shared: on [{}], setting "__proto__.polluted" assigns to
    [Object.prototype], and on [{ a: 5 }], setting "a.constructor.b"
    assigns to [Number]. Closing a prototype chain into a cycle throws. *)
Lemma setValue_through_inherited :
  (∃ h', setValue graph_empty root (Some "__proto__.polluted") (VNum 1) (Some false)
         = Normal h'
         ∧ slot_value h' object_prototype "polluted" = VNum 1)
  ∧ (∃ h', setValue graph_a_5 root (Some "a.constructor.b") (VNum 7) (Some false)
           = Normal h'
           ∧ slot_value h' 10%positive "b" = VNum 7)
  ∧ setValue graph_empty root (Some "__proto__") root (Some false) = Throw TypeError.
Proof.
  split; [|split].
  - eexists. split; [vm_compute; reflexivity|]. vm_compute. reflexivity.
  - eexists. split; [vm_compute; reflexivity|]. vm_compute. reflexivity.
  - vm_compute. reflexivity.
Qed.

(** ** The exact key is read, not written *)




(** ** getFunction *)

Section GetFunctionProperties.
Variable window : value.
Variable builtin :
  string → (value → string → completion value) → value → completion value.

Lemma callable_is_truthy h fn c : callable_of h fn = Some c → truthy fn = true.
Proof. by destruct fn. Qed.

Lemma callable_of_alloc h o :
  callable_of (alloc h o).1 (alloc h o).2 = obj_call o.
Proof. unfold alloc. simpl. by rewrite lookup_insert_eq. Qed.

(** What a call without a receiver runs: a function of the program sees
    the global object, a bound function the receiver it was bound to. *)
Lemma call_without_receiver h c :
  call window builtin h c VUndefined
  = match c with
    | Native body => body (get_prop h) window
    | Bound target receiver => call window builtin h target receiver
    | Builtin name => builtin name (get_prop h) VUndefined
    end.
Proof. by destruct c. Qed.

Lemma getFunction_unfold h scope ps inferContext fn :
  is_string scope = false →
  getValue h scope (Some ps) = Normal fn → truthy fn = true →
  getFunction window h scope (Some ps) inferContext
  = if default true inferContext then
      context ← (if has_dot ps
                 then getValue h scope (Some (substr ps 0 (lastIndexOf_dot ps)))
                 else Normal scope);
      bind h fn context
    else Normal (h, fn).
Proof.
  intros Hscope Hfn Htruthy. unfold getFunction.
  rewrite <- indexOf_dot_has_dot.
  destruct scope; try done; by rewrite Hfn, bind_Normal, Htruthy.
Qed.

Lemma getFunction_bound h scope ps inferContext fn c :
  is_string scope = false →
  default true inferContext = true →
  getValue h scope (Some ps) = Normal fn →
  callable_of h fn = Some c →
  ∃ context h' f,
    getFunction window h scope (Some ps) inferContext = Normal (h', f)
    ∧ callable_of h' f = Some (Bound c context)
    ∧ invoke window builtin h' f VUndefined = call window builtin h' c context
    ∧ (has_dot ps = false → context = scope)
    ∧ (∀ prefix last, ps = prefix ++ String "." last → has_dot last = false →
         getValue h scope (Some prefix) = Normal context
         ∧ (prefix ≠ "" → no_direct_hit h scope ps = true →
            no_direct_hit h scope prefix = true →
            descend h context [last] = fn)).
Proof.
  intros Hscope Hinfer Hfn Hc.
  rewrite (getFunction_unfold _ _ _ _ fn) by eauto using callable_is_truthy.
  rewrite Hinfer.
  assert (Hbound : ∀ context,
    ∃ h' f, bind h fn context = Normal (h', f)
            ∧ callable_of h' f = Some (Bound c context)
            ∧ invoke window builtin h' f VUndefined = call window builtin h' c context).
  { intros context. unfold bind. rewrite Hc.
    set (o := Obj (Some (Bound c context)) _ _ _).
    pose proof (callable_of_alloc h o) as Hcall.
    exists (alloc h o).1, (alloc h o).2.
    split; [by destruct (alloc h o)|]. split; [done|].
    unfold invoke. by rewrite Hcall. }
  destruct (has_dot ps) eqn:Hdot.
  - destruct (getValue_total h scope (Some (substr ps 0 (lastIndexOf_dot ps))))
      as [context Hcontext].
    destruct (Hbound context) as (h' & f & Hbind & Hcall & Hinvoke).
    exists context, h', f. rewrite Hcontext, bind_Normal.
    do 4 (split; [done|]).
    intros prefix last -> Hlast.
    rewrite context_path_prefix in Hcontext by done. split; [done|].
    intros Hprefix Hps Hpre.
    destruct (getValue_owner h scope prefix last fn) as (context' & Hc' & Hown);
      eauto using callable_is_truthy.
    congruence.
  - destruct (Hbound scope) as (h' & f & Hbind & Hcall & Hinvoke).
    exists scope, h', f. rewrite bind_Normal.
    do 4 (split; [done|]).
    intros prefix last -> Hlast. by rewrite has_dot_app_dot in Hdot.
Qed.

Lemma getFunction_raw h scope ps fn c :
  is_string scope = false →
  getValue h scope (Some ps) = Normal fn →
  callable_of h fn = Some c →
  getFunction window h scope (Some ps) (Some false) = Normal (h, fn)
  ∧ invoke window builtin h fn VUndefined
    = match c with
      | Native body => body (get_prop h) window
      | Bound target receiver => call window builtin h target receiver
      | Builtin name => builtin name (get_prop h) VUndefined
      end.
Proof.
  intros Hscope Hfn Hc.
  rewrite (getFunction_unfold _ _ _ _ fn) by eauto using callable_is_truthy.
  split; [done|]. unfold invoke. rewrite Hc. apply call_without_receiver.
Qed.
End GetFunctionProperties.

(** C6, as amended. When the context is inferred ([inferContext] true or
    left out) and a callable is found at [ps], [getFunction] returns a new
    function bound to a context: calling it calls the callable with that
    context as receiver. For a path with a dot, the context is what
    [getValue] finds at the part of the path before its last dot; that is
    the object the callable was read from when this part is not empty and
    no exact key, of the whole path or of this part, answers first. For a
    path without a dot the context is the scope itself. In the scenario
    [{ ns: { sub: { fn: function () { return this.x; }, x: 5 } } }],
    the function returned for "ns.sub.fn" answers 5. *)
Theorem getFunction_infers_context :
  (∀ window builtin h scope ps inferContext fn c,
     is_string scope = false →
     default true inferContext = true →
     getValue h scope (Some ps) = Normal fn →
     callable_of h fn = Some c →
     ∃ context h' f,
       getFunction window h scope (Some ps) inferContext = Normal (h', f)
       ∧ callable_of h' f = Some (Bound c context)
       ∧ invoke window builtin h' f VUndefined = call window builtin h' c context
       ∧ (has_dot ps = false → context = scope)
       ∧ (∀ prefix last, ps = prefix ++ String "." last → has_dot last = false →
            getValue h scope (Some prefix) = Normal context
            ∧ (prefix ≠ "" → no_direct_hit h scope ps = true →
               no_direct_hit h scope prefix = true →
               descend h context [last] = fn)))
  ∧ (∃ h' f,
       getFunction global_object graph_ns_sub_fn root (Some "ns.sub.fn") None
       = Normal (h', f)
       ∧ ∀ builtin, invoke global_object builtin h' f VUndefined = Normal (VNum 5)).
Proof.
  split; [apply getFunction_bound|].
  eexists _, _. split; [vm_compute; reflexivity|].
  intros builtin. vm_compute. reflexivity.
Qed.

Lemma getFunction_infers_context_witness :
  ∃ context h' f,
    getFunction global_object graph_ns_sub_fn root (Some "ns.sub.fn") (Some true)
    = Normal (h', f)
    ∧ callable_of h' f = Some (Bound return_this_x context)
    ∧ invoke global_object builtin_undefined h' f VUndefined
      = call global_object builtin_undefined h' return_this_x context
    ∧ (has_dot "ns.sub.fn" = false → context = root)
    ∧ (∀ prefix last, "ns.sub.fn" = prefix ++ String "." last → has_dot last = false →
         getValue graph_ns_sub_fn root (Some prefix) = Normal context
         ∧ (prefix ≠ "" → no_direct_hit graph_ns_sub_fn root "ns.sub.fn" = true →
            no_direct_hit graph_ns_sub_fn root prefix = true →
            descend graph_ns_sub_fn context [last] = VRef 23%positive)).
Proof.
  apply (proj1 getFunction_infers_context global_object builtin_undefined
           graph_ns_sub_fn root "ns.sub.fn" (Some true) (VRef 23%positive)
           return_this_x);
    vm_compute; reflexivity.
Defined.

(** The claim as stated fails where an exact key answers for the part of
    the path before the last dot. In
    [{ "a.b": { x: 1 }, a: { b: { fn: function () { return this.x; }, x: 5 } } }]
    the callable at "a.b.fn" is the property [fn] of the object at
    [root.a.b], whose [x] is 5; the function returned is bound to the
    object under the key "a.b", and answers 1. *)
Lemma getFunction_infers_context_counterexample :
  has_dot "a.b.fn" = true
  ∧ getValue graph_dotted_key_and_fn root (Some "a.b.fn") = Normal (VRef 23%positive)
  ∧ descend graph_dotted_key_and_fn root ["a"; "b"] = VRef 22%positive
  ∧ slot_value graph_dotted_key_and_fn 22%positive "fn" = VRef 23%positive
  ∧ slot_value graph_dotted_key_and_fn 22%positive "x" = VNum 5
  ∧ ∃ h' f,
      getFunction global_object graph_dotted_key_and_fn root (Some "a.b.fn") (Some true)
      = Normal (h', f)
      ∧ callable_of h' f = Some (Bound return_this_x (VRef 25%positive))
      ∧ ∀ builtin, invoke global_object builtin h' f VUndefined = Normal (VNum 1).
Proof.
  do 5 (split; [vm_compute; reflexivity|]).
  eexists _, _. split; [vm_compute; reflexivity|].
  split; [vm_compute; reflexivity|].
  intros builtin. vm_compute. reflexivity.
Qed.

(** C9, as amended. With [inferContext = false], [getFunction] returns the
    very value that [getValue] finds, and leaves the store as it is.
    Called without a receiver, a function of the program runs on the
    global object, and a function that is already bound on the receiver
    it was bound to, whatever object holds it: in the scenario, where the
    global object has no [x], the raw function answers [undefined] rather
    than 5. *)
Theorem getFunction_raw_when_not_inferring :
  (∀ window builtin h scope ps fn c,
     is_string scope = false →
     getValue h scope (Some ps) = Normal fn →
     callable_of h fn = Some c →
     getFunction window h scope (Some ps) (Some false) = Normal (h, fn)
     ∧ invoke window builtin h fn VUndefined
       = match c with
         | Native body => body (get_prop h) window
         | Bound target receiver => call window builtin h target receiver
         | Builtin name => builtin name (get_prop h) VUndefined
         end)
  ∧ (getFunction global_object graph_ns_sub_fn root (Some "ns.sub.fn") (Some false)
     = Normal (graph_ns_sub_fn, VRef 23%positive)
     ∧ (∀ builtin,
          invoke global_object builtin graph_ns_sub_fn (VRef 23%positive) VUndefined
          = Normal VUndefined)
     ∧ descend graph_ns_sub_fn root ["ns"; "sub"; "x"] = VNum 5).
Proof.
  split; [apply getFunction_raw|].
  split; [vm_compute; reflexivity|]. split; [|vm_compute; reflexivity].
  intros builtin. vm_compute. reflexivity.
Qed.

Lemma getFunction_raw_when_not_inferring_witness :
  getFunction global_object graph_ns_sub_fn root (Some "ns.sub.fn") (Some false)
  = Normal (graph_ns_sub_fn, VRef 23%positive)
  ∧ invoke global_object builtin_undefined graph_ns_sub_fn (VRef 23%positive) VUndefined
    = match return_this_x with
      | Native body => body (get_prop graph_ns_sub_fn) global_object
      | Bound target receiver =>
          call global_object builtin_undefined graph_ns_sub_fn target receiver
      | Builtin name => builtin_undefined name (get_prop graph_ns_sub_fn) VUndefined
      end.
Proof.
  apply (proj1 getFunction_raw_when_not_inferring global_object builtin_undefined
           graph_ns_sub_fn root "ns.sub.fn" (VRef 23%positive) return_this_x);
    vm_compute; reflexivity.
Defined.

(** The claim as stated fails where the object that holds the callable
    is the global object: there the raw function, called without a
    receiver, runs on the object that holds it, and reads its [x]. The
    same holds when the path is given alone, as a string. *)
Lemma getFunction_raw_when_not_inferring_counterexample :
  slot_value graph_global_fn 30%positive "fn" = VRef 23%positive
  ∧ slot_value graph_global_fn 30%positive "x" = VNum 5
  ∧ getFunction global_object graph_global_fn global_object (Some "fn") (Some false)
    = Normal (graph_global_fn, VRef 23%positive)
  ∧ getFunction global_object graph_global_fn (VStr "fn") None (Some false)
    = Normal (graph_global_fn, VRef 23%positive)
  ∧ ∀ builtin,
      invoke global_object builtin graph_global_fn (VRef 23%positive) VUndefined
      = Normal (VNum 5).
Proof.
  do 4 (split; [vm_compute; reflexivity|]).
  intros builtin. vm_compute. reflexivity.
Qed.

(** * Further properties of the reflection helpers *)

(** ** What getValue computes *)

(** For a key without a dot the exact-key test and the token walk agree:
    [getValue] returns what reading the key off the object yields, be it
    an own property or an inherited one, falsy values such as 0, false and
    the empty string included, and null when it yields nothing. *)
Theorem getValue_plain_key h object ps :
  truthy object = true → ps ≠ "" → has_dot ps = false →
  getValue h object (Some ps) = Normal (absent_as_null (descend h object [ps])).
Proof.
  intros Hobj Hps Hdot. rewrite getValue_unfold, (split_dot_plain _ Hdot) by done.
  destruct (truthy (descend h object [ps])) eqn:Htruthy; [|done].
  by rewrite absent_as_null_truthy.
Qed.

Lemma getValue_plain_key_witness :
  getValue (<[ 20%positive := literal {[ "a" := VBool false ]} ]> standard_library)
    root (Some "a")
  = Normal (absent_as_null
              (descend (<[ 20%positive := literal {[ "a" := VBool false ]} ]>
                          standard_library)
                 root ["a"])).
Proof.
  apply getValue_plain_key.
  - reflexivity.
  - discriminate.
  - reflexivity.
Defined.

(** ** What setValue touches *)






(** [setValue] assigns only to properties named by a token of its path:
    on every object of the store, a property of any other name keeps its
    value. *)
Theorem setValue_keeps_other_keys h object ps v instantiateObjects h' l k :
  setValue h object (Some ps) v instantiateObjects = Normal h' →
  is_Some (h !! l) → k ∉ split_dot ps →
  slot_value h' l k = slot_value h l k.
Proof.
  unfold setValue, slot_value. intros Hset Hl Hk.
  destruct (negb (truthy object)); [by injection Hset as <-|].
  destruct (String.eqb ps ""); [by injection Hset as <-|].
  by rewrite (setValue_loop_frame_key _ _ _ _ _ _ l k Hset).
Qed.

Lemma setValue_keeps_other_keys_witness :
  slot_value graph_a_b_c_1 20%positive "z" = slot_value graph_empty 20%positive "z".
Proof.
  apply (setValue_keeps_other_keys graph_empty root "a.b.c" (VNum 1) (Some true)).
  - vm_compute. reflexivity.
  - vm_compute. eexists. reflexivity.
  - vm_compute. intros Hin. by repeat (apply elem_of_cons in Hin as [Hin|Hin]; [discriminate|]);
      apply elem_of_nil in Hin.
Defined.

(** When the walk of [setValue] steps, through truthy values, from the
    root to an object with one token left, and that token can be assigned
    to on the object, [setValue] makes one assignment and nothing else:
    the object gets the value as own property under the last token,
    whatever it held and whatever the flag; no object is created. *)
Theorem setValue_assigns_once h object ps v instantiateObjects pre k l o :
  ps ≠ "" →
  split_dot ps = (pre ++ [k])%list →
  truthy_walk h object pre = Some (VRef l) →
  h !! l = Some o →
  assignable h l k = true →
  setValue h object (Some ps) v instantiateObjects
  = Normal (<[l := with_property o k v]> h).
Proof.
  intros Hps Hsplit Hpre Hl Ha.
  unfold setValue. rewrite (proj1 (truthy_walk_truthy _ _ _ _ Hpre)).
  simpl negb. cbv iota.
  destruct (String.eqb_spec ps ""); [done|].
  rewrite Hsplit, (setValue_loop_walk _ _ _ _ _ _ (VRef l)) by done.
  rewrite setValue_loop_last. by apply put_prop_assignable.
Qed.

Lemma setValue_assigns_once_witness :
  setValue graph_a_b_2 root (Some "a.b") (VStr "new") None
  = Normal (<[21%positive := with_property (literal {[ "b" := VNum 2 ]}) "b" (VStr "new")]>
              graph_a_b_2).
Proof.
  apply (setValue_assigns_once graph_a_b_2 root "a.b" (VStr "new") None ["a"] "b"
           21%positive (literal {[ "b" := VNum 2 ]})).
  - discriminate.
  - reflexivity.
  - vm_compute. reflexivity.
  - reflexivity.
  - vm_compute. reflexivity.
Defined.

(** ** What getFunction touches *)


(** [getFunction] changes no object of the store: when it binds, the new
    function is a new object. *)
Theorem getFunction_keeps_store window h scopeOrPropertyString propertyString
    inferContext h' fn l o :
  getFunction window h scopeOrPropertyString propertyString inferContext
  = Normal (h', fn) →
  h !! l = Some o → h' !! l = Some o.
Proof.
  unfold getFunction. intros Hget Hl.
  destruct (match scopeOrPropertyString with
            | VStr s => (window, Some s)
            | _ => (scopeOrPropertyString, propertyString)
            end) as [scope p].
  destruct (getValue h scope p) as [f|e]; [|done].
  rewrite bind_Normal in Hget.
  destruct (negb (truthy f)); [by injection Hget as <- _|].
  destruct (default true inferContext); [|by injection Hget as <- _].
  destruct (match p with
            | Some ps => _
            | None => _
            end) as [context|e]; [|done].
  rewrite bind_Normal in Hget. unfold bind in Hget.
  destruct (callable_of h f); [|done].
  unfold alloc in Hget. injection Hget as <- _.
  by apply alloc_keeps_objects.
Qed.

Lemma getFunction_keeps_store_witness :
  ∃ h' fn,
    getFunction global_object graph_ns_sub_fn root (Some "ns.sub.fn") None
    = Normal (h', fn)
    ∧ h' !! 22%positive
      = Some (literal (<[ "x" := VNum 5 ]> {[ "fn" := VRef 23%positive ]})).
Proof.
  eexists _, _. split; [vm_compute; reflexivity|].
  eapply (getFunction_keeps_store global_object graph_ns_sub_fn root
            (Some "ns.sub.fn") None).
  - vm_compute. reflexivity.
  - reflexivity.
Defined.

(** ** Reading after writing elsewhere *)

(** What [getValue] returns for an own property of an object, under a
    key without a dot, is not changed by a [setValue] whose path has no
    token equal to that key. *)
Theorem getValue_plain_key_after_setValue h object l ps v instantiateObjects h' k x w :
  setValue h object (Some ps) v instantiateObjects = Normal h' →
  own_slot h l k = Some (Data x w) →
  k ≠ "" → has_dot k = false → k ∉ split_dot ps →
  getValue h' (VRef l) (Some k) = getValue h (VRef l) (Some k).
Proof.
  intros Hset Hown Hk Hdot Hin.
  assert (Hown' : own_slot h' l k = Some (Data x w)).
  { unfold setValue in Hset.
    destruct (negb (truthy object)); [by injection Hset as <-|].
    destruct (String.eqb ps ""); [by injection Hset as <-|].
    by rewrite (setValue_loop_frame_key _ _ _ _ _ _ l k Hset). }
  assert (Hread : ∀ g, own_slot g l k = Some (Data x w) →
                       getValue g (VRef l) (Some k) = Normal (absent_as_null x)).
  { intros g Hg. rewrite getValue_unfold, (split_dot_plain _ Hdot) by done.
    rewrite (descend_cons _ _ _ _ x) by by apply (get_prop_own _ _ _ _ w).
    simpl descend. destruct (truthy x) eqn:Hx; [|done].
    by rewrite absent_as_null_truthy. }
  by rewrite !Hread.
Qed.

Lemma getValue_plain_key_after_setValue_witness :
  getValue (<[21%positive := with_property (literal {[ "b" := VNum 2 ]}) "c" (VNum 7)]>
              graph_a_b_2) (VRef 21%positive) (Some "b")
  = getValue graph_a_b_2 (VRef 21%positive) (Some "b").
Proof.
  apply (getValue_plain_key_after_setValue graph_a_b_2 root 21%positive "a.c" (VNum 7)
           None _ "b" (VNum 2) true).
  - vm_compute. reflexivity.
  - vm_compute. reflexivity.
  - discriminate.
  - reflexivity.
  - vm_compute. intros Hin.
    by repeat (apply elem_of_cons in Hin as [Hin|Hin]; [discriminate|]);
      apply elem_of_nil in Hin.
Defined.
(** * String manipulation *)

Lemma length_app (s1 s2 : string) :
  String.length (s1 ++ s2) = (String.length s1 + String.length s2)%nat.
Proof. induction s1 as [|c s1 IH]; simpl; [done|]. by rewrite IH. Qed.

Lemma app_cons c (s1 s2 : string) : String c s1 ++ s2 = String c (s1 ++ s2).
Proof. reflexivity. Qed.

Lemma app_empty_l (s : string) : "" ++ s = s.
Proof. reflexivity. Qed.

Lemma app_empty_r (s : string) : s ++ "" = s.
Proof. induction s as [|c s IH]; [done|]. by rewrite app_cons, IH. Qed.

Lemma substring_0_0 s : String.substring 0 0 s = "".
Proof. by destruct s. Qed.

Lemma length_substring n m s : (String.length (String.substring n m s) ≤ m)%nat.
Proof.
  revert n m. induction s as [|c s IH]; intros [|n] [|m]; simpl; try lia.
  - specialize (IH 0%nat m). lia.
  - apply (IH n 0%nat).
  - apply (IH n (S m)).
Qed.

Lemma substring_prefix_iff p s :
  String.substring 0 (String.length p) s = p ↔ ∃ post, s = p ++ post.
Proof.
  revert s. induction p as [|c p IH]; intros s; simpl.
  - rewrite substring_0_0. split; [by exists s|done].
  - destruct s as [|d s]; simpl.
    + split; [done|]. by intros [post ?].
    + split.
      * intros [= -> Hsub]. apply IH in Hsub as [post ->]. by exists post.
      * intros [post [= -> ->]]. f_equal. apply IH. by exists post.
Qed.

Lemma substring_whole s : String.substring 0 (String.length s) s = s.
Proof. induction s as [|c s IH]; simpl; [done|]. by rewrite IH. Qed.

Lemma substring_suffix pre suf :
  String.substring (String.length pre) (String.length suf) (pre ++ suf) = suf.
Proof. induction pre as [|c pre IH]; simpl; [apply substring_whole|done]. Qed.

Lemma substring_split k s :
  (k ≤ String.length s)%nat →
  s = String.substring 0 k s ++ String.substring k (String.length s - k) s.
Proof.
  revert k. induction s as [|c s IH]; intros [|k] Hk; simpl in *; try done; try lia.
  - by rewrite substring_whole.
  - rewrite app_cons. f_equal. apply IH. lia.
Qed.

Lemma substr_from_suffix_iff str suf :
  substr_from str (Z.of_nat (String.length str) - Z.of_nat (String.length suf))%Z = suf
  ↔ ∃ pre, str = pre ++ suf.
Proof.
  unfold substr_from.
  set (n := String.length str). set (m := String.length suf).
  destruct (Z.ltb_spec (Z.of_nat n - Z.of_nat m) 0) as [Hlt|Hge].
  - (* the suffix is longer than the string *)
    split.
    + intros Heq.
      pose proof (length_substring
        (Z.to_nat (Z.max (Z.of_nat n + (Z.of_nat n - Z.of_nat m)) 0))
        (Z.to_nat (Z.of_nat n - Z.max (Z.of_nat n + (Z.of_nat n - Z.of_nat m)) 0))
        str) as Hlen.
      rewrite Heq in Hlen. fold m in Hlen. lia.
    + intros [pre Heq]. assert (n = (String.length pre + m)%nat) as Hn.
      { unfold n, m. by rewrite Heq, length_app. }
      lia.
  - replace (Z.min (Z.of_nat n - Z.of_nat m) (Z.of_nat n))
      with (Z.of_nat (n - m)) by lia.
    replace (Z.of_nat n - Z.of_nat (n - m))%Z with (Z.of_nat m) by lia.
    rewrite !Nat2Z.id. split.
    + intros Heq. exists (String.substring 0 (n - m) str).
      rewrite <- Heq.
      replace (String.substring (n - m) m str)
        with (String.substring (n - m) (n - (n - m)) str) by (f_equal; lia).
      apply substring_split. lia.
    + intros [pre Heq]. assert (n = (String.length pre + m)%nat) as Hn.
      { unfold n, m. by rewrite Heq, length_app. }
      replace (n - m)%nat with (String.length pre) by lia.
      rewrite Heq. apply substring_suffix.
Qed.

(** [endsWith] holds exactly when the string is given and not empty, and
    the suffix is missing, empty, or a suffix of the string. An empty
    string ends with nothing, not even with the empty suffix; a suffix
    longer than the string is never found. *)
Theorem endsWith_iff str suffix :
  endsWith str suffix = true
  ↔ ∃ s, str = Some s ∧ s ≠ ""
         ∧ (suffix = None ∨ ∃ suf pre, suffix = Some suf ∧ s = pre ++ suf).
Proof.
  unfold endsWith. destruct str as [s|]; [|split; [done|by intros (? & ? & _)]].
  destruct (String.eqb_spec s "") as [->|Hs].
  { split; [done|]. by intros (? & [= <-] & ? & _). }
  destruct suffix as [suf|].
  2: { split; [|done]. intros _. exists s. eauto. }
  destruct (String.eqb_spec suf "") as [->|Hsuf].
  { split; [|done]. intros _. exists s. split; [done|]. split; [done|].
    right. exists "", s. split; [done|]. by rewrite app_empty_r. }
  rewrite String.eqb_eq, substr_from_suffix_iff. split.
  - intros [pre Heq]. exists s. split; [done|]. split; [done|]. right. by exists suf, pre.
  - intros (? & [= <-] & _ & [?|(? & pre & [= <-] & Heq)]); [done|]. by exists pre.
Qed.

(** [startsWith] holds exactly when the string is given and not empty, and
    the prefix is missing, empty, or a prefix of the string. *)
Theorem startsWith_iff str prefix :
  startsWith str prefix = true
  ↔ ∃ s, str = Some s ∧ s ≠ ""
         ∧ (prefix = None ∨ ∃ p post, prefix = Some p ∧ s = p ++ post).
Proof.
  unfold startsWith. destruct str as [s|]; [|split; [done|by intros (? & ? & _)]].
  destruct (String.eqb_spec s "") as [->|Hs].
  { split; [done|]. by intros (? & [= <-] & ? & _). }
  destruct prefix as [p|].
  2: { split; [|done]. intros _. exists s. eauto. }
  destruct (String.eqb_spec p "") as [->|Hp].
  { split; [|done]. intros _. exists s. split; [done|]. split; [done|].
    right. by exists "", s. }
  unfold substr. rewrite Nat2Z.id. simpl (Z.to_nat 0).
  rewrite String.eqb_eq, substring_prefix_iff. split.
  - intros [post Heq]. exists s. split; [done|]. split; [done|]. right. by exists p, post.
  - intros (? & [= <-] & _ & [?|(? & post & [= <-] & Heq)]); [done|]. by exists post.
Qed.

(** ** toTitleCase *)

Lemma toLowerCase_char_space c :
  is_space_char (toLowerCase_char c) = is_space_char c.
Proof. by destruct c as [[] [] [] [] [] [] [] []]. Qed.

Lemma toLowerCase_char_idemp c :
  toLowerCase_char (toLowerCase_char c) = toLowerCase_char c.
Proof. by destruct c as [[] [] [] [] [] [] [] []]. Qed.

Lemma toUpperCase_char_idemp c :
  toUpperCase_char (toUpperCase_char c) = toUpperCase_char c.
Proof. by destruct c as [[] [] [] [] [] [] [] []]. Qed.

Lemma toUpperCase_char_word c :
  is_word_char c = true → is_word_char (toUpperCase_char c) = true.
Proof. by destruct c as [[] [] [] [] [] [] [] []]. Qed.

Lemma toUpperCase_char_not_space c :
  is_word_char c = true → is_space_char (toUpperCase_char c) = false.
Proof. by destruct c as [[] [] [] [] [] [] [] []]. Qed.

Lemma toUpperCase_char_not_lower c : between 97 122 (toUpperCase_char c) = false.
Proof. by destruct c as [[] [] [] [] [] [] [] []]. Qed.

Lemma not_word_not_lower c : is_word_char c = false → between 97 122 c = false.
Proof. by destruct c as [[] [] [] [] [] [] [] []]. Qed.

Lemma title_scan_length in_match s :
  String.length (title_scan in_match s) = String.length s.
Proof.
  revert in_match. induction s as [|c s IH]; intros in_match; simpl; [done|].
  destruct in_match; [destruct (is_space_char c)|destruct (is_word_char c)];
    simpl; by rewrite IH.
Qed.

Lemma title_scan_idemp in_match s :
  title_scan in_match (title_scan in_match s) = title_scan in_match s.
Proof.
  revert in_match. induction s as [|c s IH]; intros in_match; simpl; [done|].
  destruct in_match.
  - destruct (is_space_char c) eqn:Hc; simpl.
    + by rewrite Hc, IH.
    + by rewrite toLowerCase_char_space, Hc, toLowerCase_char_idemp, IH.
  - destruct (is_word_char c) eqn:Hc; simpl.
    + by rewrite (toUpperCase_char_word _ Hc), toUpperCase_char_idemp, IH.
    + by rewrite Hc, IH.
Qed.

Lemma title_scan_capitalized s : ∀ in_match at_start,
  (at_start = true → in_match = false) →
  capitalized_starts at_start (title_scan in_match s) = true.
Proof.
  induction s as [|c s IH]; intros in_match at_start Hstate; simpl; [done|].
  destruct in_match.
  - destruct at_start; [by specialize (Hstate eq_refl)|].
    destruct (is_space_char c) eqn:Hc; simpl.
    + apply IH. done.
    + apply IH. by rewrite toLowerCase_char_space, Hc.
  - destruct (is_word_char c) eqn:Hc; simpl.
    + rewrite toUpperCase_char_not_lower, andb_false_r. simpl.
      apply IH. by rewrite (toUpperCase_char_not_space _ Hc).
    + rewrite (not_word_not_lower _ Hc), andb_false_r. simpl.
      apply IH. done.
Qed.

(** On an ASCII string, [toTitleCase] changes letters only: the result
    has the length of the argument. *)
Theorem toTitleCase_length s :
  ascii_only s = true →
  String.length (toTitleCase (Some s)) = String.length s.
Proof.
  intros _. unfold toTitleCase.
  destruct (String.eqb_spec s "") as [->|_]; [done|]. apply title_scan_length.
Qed.

Lemma toTitleCase_length_witness :
  String.length (toTitleCase (Some "the qUICK brown-fox")) = 19%nat.
Proof. apply (toTitleCase_length "the qUICK brown-fox"). reflexivity. Defined.

(** On an ASCII string, title-casing twice gives what title-casing once
    gives. *)
Theorem toTitleCase_idempotent s :
  ascii_only s = true →
  toTitleCase (Some (toTitleCase (Some s))) = toTitleCase (Some s).
Proof.
  intros _. unfold toTitleCase.
  destruct (String.eqb_spec s "") as [->|Hs]; [done|].
  destruct (String.eqb_spec (title_scan false s) "") as [->|_]; [done|].
  apply title_scan_idemp.
Qed.

Lemma toTitleCase_idempotent_witness :
  toTitleCase (Some (toTitleCase (Some "the qUICK brown-fox")))
  = toTitleCase (Some "the qUICK brown-fox").
Proof. apply toTitleCase_idempotent. reflexivity. Defined.

(** On an ASCII string, the result of [toTitleCase] has no lower-case
    letter at its start or right after white space. *)
Theorem toTitleCase_capitalizes s :
  ascii_only s = true →
  capitalized_starts true (toTitleCase (Some s)) = true.
Proof.
  intros _. unfold toTitleCase.
  destruct (String.eqb_spec s "") as [->|Hs]; [done|].
  by apply title_scan_capitalized.
Qed.

Lemma toTitleCase_capitalizes_witness :
  capitalized_starts true (toTitleCase (Some "the qUICK brown-fox")) = true.
Proof. apply toTitleCase_capitalizes. reflexivity. Defined.

(** * Misc *)

(** ** generateGuid *)

Lemma toString16_upper_digit d :
  (d < 16)%nat →
  ∃ c, toString16_upper d d = String c "" ∧ is_hex_upper c = true.
Proof.
  intros Hd.
  do 16 (destruct d as [|d]; [eexists; split; reflexivity|]). lia.
Qed.

(** Whatever the random draws, the result of [generateGuid] has 36
    characters: hyphens at positions 8, 13, 18 and 23, and digits or
    letters from A to F everywhere else. *)
Theorem generateGuid_format draw :
  (∀ j, (j < 32)%nat → (draw j < 16)%nat) →
  String.length (generateGuid draw) = 36%nat
  ∧ ∀ i c, String.get i (generateGuid draw) = Some c →
      if (i =? 8)%nat || (i =? 13)%nat || (i =? 18)%nat || (i =? 23)%nat
      then c = "-"%char
      else is_hex_upper c = true.
Proof.
  intros Hdraw.
  cbv [generateGuid generateGuid_loop Nat.eqb orb].
  repeat match goal with
         | |- context [toString16_upper (draw ?j) (draw ?j)] =>
             let c := fresh "c" in
             let Heq := fresh "Heq" in
             let Hc := fresh "Hc" in
             destruct (toString16_upper_digit (draw j)) as (c & Heq & Hc);
             [apply Hdraw; lia|]; rewrite Heq; clear Heq
         end.
  split; [reflexivity|].
  intros i ch.
  do 36 (destruct i as [|i]; [intros [= <-]; first [reflexivity | assumption]|]).
  discriminate.
Qed.

Lemma generateGuid_format_witness :
  String.length (generateGuid (fun j => j mod 16)%nat) = 36%nat
  ∧ ∀ i c, String.get i (generateGuid (fun j => j mod 16)%nat) = Some c →
      if (i =? 8)%nat || (i =? 13)%nat || (i =? 18)%nat || (i =? 23)%nat
      then c = "-"%char
      else is_hex_upper c = true.
Proof.
  apply (generateGuid_format (fun j => j mod 16)%nat).
  intros j _. apply Nat.mod_upper_bound. lia.
Defined.

(** ** categories *)

Lemma assign_order_identity categoryName index cats :
  map category_identity (assign_order categoryName index cats)
  = map category_identity cats.
Proof.
  induction cats as [|c cats IH]; simpl; [done|].
  destruct (String.eqb (name c) categoryName); simpl; [done|]. by rewrite IH.
Qed.

Lemma apply_categoryOrder_identity categoryOrder : ∀ index cats,
  map category_identity (apply_categoryOrder categoryOrder index cats)
  = map category_identity cats.
Proof.
  induction categoryOrder as [|n rest IH]; intros index cats; simpl; [done|].
  by rewrite IH, assign_order_identity.
Qed.

Lemma insert_by_order_Permutation x l : insert_by_order x l ≡ₚ x :: l.
Proof.
  induction l as [|y l IH]; simpl; [done|].
  destruct (order x <=? order y)%nat; [done|].
  rewrite IH. apply perm_swap.
Qed.

Lemma sortBy_order_Permutation l : sortBy_order l ≡ₚ l.
Proof.
  induction l as [|x l IH]; simpl; [done|].
  by rewrite insert_by_order_Permutation, IH.
Qed.

(** Whatever order is stored in the preferences (unknown names, repeated
    names, too few or too many names), [categories] returns the four
    categories, each once, with its own link and icon. *)
Theorem categories_Permutation categoryOrder :
  map category_identity (categories categoryOrder)
  ≡ₚ map category_identity default_categories.
Proof.
  unfold categories. rewrite sortBy_order_Permutation.
  destruct categoryOrder as [o|]; [|done].
  by rewrite apply_categoryOrder_identity.
Qed.

(** When the stored order lists the four category names, each once, the
    categories are returned in that order. *)
Theorem categories_follow_full_order categoryOrder :
  categoryOrder ≡ₚ map name default_categories →
  map name (categories (Some categoryOrder)) = categoryOrder.
Proof.
  intros Hperm. symmetry in Hperm. apply permutations_Permutation in Hperm.
  revert categoryOrder Hperm. apply Forall_forall.
  vm_compute. repeat constructor.
Qed.

Lemma categories_follow_full_order_witness :
  map name (categories (Some ["Category 3"; "Category 1"; "Category 4"; "Category 2"]))
  = ["Category 3"; "Category 1"; "Category 4"; "Category 2"].
Proof.
  apply categories_follow_full_order.
  symmetry. apply permutations_Permutation. vm_compute.
  repeat first [apply list_elem_of_here | apply list_elem_of_further].
Defined.

Lemma assign_order_head categoryName index c cats :
  name c ≠ categoryName →
  assign_order categoryName index (c :: cats) = c :: assign_order categoryName index cats.
Proof. intros Hne. simpl. by destruct (String.eqb_spec (name c) categoryName). Qed.

Lemma apply_categoryOrder_head categoryOrder : ∀ index c cats,
  name c ∉ categoryOrder →
  ∃ cats', apply_categoryOrder categoryOrder index (c :: cats) = c :: cats'.
Proof.
  induction categoryOrder as [|n rest IH]; intros index c cats Hin; [simpl; eauto|].
  apply not_elem_of_cons in Hin as [Hne Hin].
  change (apply_categoryOrder (n :: rest) index (c :: cats))
    with (apply_categoryOrder rest (S index) (assign_order n index (c :: cats))).
  rewrite assign_order_head by done. by apply IH.
Qed.

Lemma sortBy_order_head c cats :
  order c = 0%nat → head (sortBy_order (c :: cats)) = Some c.
Proof.
  intros Hc. simpl. destruct (sortBy_order cats) as [|y l]; simpl; [done|].
  by rewrite Hc.
Qed.

(** A stored order that does not name "Category 1" leaves it the default
    category, whatever else it lists: the category named first takes
    position 0, which "Category 1" holds already, and the sort is stable. *)
Theorem defaultCategory_unless_named categoryOrder :
  "Category 1" ∉ categoryOrder →
  name <$> defaultCategory (Some categoryOrder) = Some "Category 1".
Proof.
  intros Hin. unfold defaultCategory, categories, default_categories.
  match goal with
  | |- context [apply_categoryOrder _ _ (?c :: ?cats)] =>
      destruct (apply_categoryOrder_head categoryOrder 0 c cats Hin) as [cats' ->]
  end.
  by rewrite sortBy_order_head.
Qed.

Lemma defaultCategory_unless_named_witness :
  name <$> defaultCategory (Some ["Category 3"; "Category 2"]) = Some "Category 1".
Proof.
  apply defaultCategory_unless_named.
  intros Hin. by repeat (apply elem_of_cons in Hin as [Hin|Hin]; [discriminate|]);
    apply elem_of_nil in Hin.
Defined.

(** ** Platforms *)

(** The four platform tests exclude one another: at most one of them
    holds, and none where no device is defined. *)
Theorem platforms_exclusive device :
  (length (filter (fun b => b = true)
             [isAndroid device; isIos device; isWindowsPhone8 device;
              isWindows8 device]) ≤ 1)%nat
  ∧ (device = None →
     isAndroid device = false ∧ isIos device = false
     ∧ isWindowsPhone8 device = false ∧ isWindows8 device = false).
Proof.
  split; [|by intros ->].
  destruct device as [platform|]; [|simpl; lia].
  unfold isAndroid, isIos, isWindowsPhone8, isWindows8.
  destruct (String.eqb_spec platform "Android") as [->|_]; [simpl; lia|].
  destruct (String.eqb_spec platform "iOS") as [->|_]; [simpl; lia|].
  destruct (String.eqb_spec platform "WP8") as [->|_]; [simpl; lia|].
  destruct (String.eqb platform "Windows8"); simpl; lia.
Qed.

(** * format *)

Lemma app_assoc_string (s1 s2 s3 : string) : (s1 ++ s2) ++ s3 = s1 ++ s2 ++ s3.
Proof. induction s1 as [|c s1 IH]; [done|]. by rewrite !app_cons, IH. Qed.

Lemma contains_char_app x s1 s2 :
  contains_char x (s1 ++ s2) = contains_char x s1 || contains_char x s2.
Proof.
  induction s1 as [|c s1 IH]; [done|].
  rewrite app_cons. simpl. by rewrite IH, orb_assoc.
Qed.

Lemma all_digits_no_char x s :
  between 48 57 x = false → all_digits s = true → contains_char x s = false.
Proof.
  intros Hx. induction s as [|c s IH]; simpl; [done|].
  intros [Hc Hs]%andb_true_iff. rewrite (IH Hs), orb_false_r.
  destruct (Ascii.eqb_spec c x) as [->|]; [congruence|done].
Qed.

Lemma pretty_N_go_digits (x : N) : ∀ s,
  all_digits s = true → all_digits (pretty_N_go x s) = true.
Proof.
  induction (N.lt_wf_0 x) as [x _ IH]; intros s Hs.
  assert (x = 0 ∨ 0 < x)%N as [->|Hx] by lia; [by rewrite pretty_N_go_0|].
  rewrite pretty_N_go_step by done. apply IH; [by apply N.div_lt|].
  simpl. rewrite Hs, andb_true_r. unfold pretty_N_char. by repeat case_match.
Qed.

Lemma pretty_nat_digits (n : nat) : all_digits (pretty n) = true.
Proof.
  unfold pretty, pretty_nat, pretty, pretty_N.
  case_decide; [done|]. by apply pretty_N_go_digits.
Qed.

Lemma prefix_cons a p c s :
  String.prefix (String a p) (String c s)
  = if Ascii.eqb a c then String.prefix p s else false.
Proof.
  simpl. destruct (ascii_dec a c) as [->|Hne].
  - by rewrite Ascii.eqb_refl.
  - by destruct (Ascii.eqb_spec a c).
Qed.

Lemma prefix_app p s : String.prefix p (p ++ s) = true.
Proof.
  induction p as [|a p IH]; [by destruct s|].
  by rewrite app_cons, prefix_cons, Ascii.eqb_refl.
Qed.

Lemma prefix_digits_closed pj : ∀ pi post,
  all_digits pj = true → all_digits pi = true →
  String.prefix (pj ++ "}") (pi ++ String "}" post) = true → pj = pi.
Proof.
  induction pj as [|c pj IH]; intros [|d pi] post Hj Hi; try done.
  - rewrite app_empty_l, app_cons, prefix_cons.
    simpl in Hi. apply andb_true_iff in Hi as [Hd _].
    destruct (Ascii.eqb_spec "}" d) as [<-|]; [done|done].
  - rewrite app_cons, app_empty_l, prefix_cons.
    simpl in Hj. apply andb_true_iff in Hj as [Hc _].
    destruct (Ascii.eqb_spec c "}") as [->|]; [done|done].
  - rewrite !app_cons, prefix_cons.
    simpl in Hj, Hi. apply andb_true_iff in Hj as [_ Hj].
    apply andb_true_iff in Hi as [_ Hi].
    destruct (Ascii.eqb_spec c d) as [->|]; [|done].
    intros Hp. f_equal. by apply (IH pi post).
Qed.

Lemma expand_replacement_plain matched before after rep :
  contains_char "$" rep = false →
  expand_replacement matched before after rep = rep.
Proof.
  induction rep as [|c rep IH]; simpl; [done|].
  intros [Hc Hrep]%orb_false_elim. rewrite Hc. by rewrite IH.
Qed.

Section Replace.
Variables (tail replacement whole : string).

(** The patterns of [format] start with a brace. *)
Let pattern : string := String "{" tail.

Lemma replace_from_no_brace s : ∀ pos,
  contains_char "{" s = false →
  replace_from pattern replacement whole pos 0 s = s.
Proof.
  induction s as [|c s IH]; intros pos; [done|].
  intros [Hc Hs]%orb_false_elim.
  change (replace_from pattern replacement whole pos 0 (String c s))
    with (if String.prefix pattern (String c s)
          then expand_replacement pattern (String.substring 0 pos whole)
                 (String.substring (pos + String.length pattern)
                    (String.length whole - (pos + String.length pattern)) whole)
                 replacement
               ++ replace_from pattern replacement whole (S pos)
                    (String.length pattern - 1) s
          else String c (replace_from pattern replacement whole (S pos) 0 s)).
  unfold pattern at 1. rewrite prefix_cons, Ascii.eqb_sym, Hc.
  by rewrite IH.
Qed.

Lemma replace_from_before pre rest : ∀ pos,
  contains_char "{" pre = false →
  ∃ pos', replace_from pattern replacement whole pos 0 (pre ++ rest)
          = pre ++ replace_from pattern replacement whole pos' 0 rest.
Proof.
  induction pre as [|c pre IH]; intros pos; [by exists pos|].
  intros [Hc Hpre]%orb_false_elim. rewrite !app_cons.
  change (replace_from pattern replacement whole pos 0 (String c (pre ++ rest)))
    with (if String.prefix pattern (String c (pre ++ rest))
          then expand_replacement pattern (String.substring 0 pos whole)
                 (String.substring (pos + String.length pattern)
                    (String.length whole - (pos + String.length pattern)) whole)
                 replacement
               ++ replace_from pattern replacement whole (S pos)
                    (String.length pattern - 1) (pre ++ rest)
          else String c (replace_from pattern replacement whole (S pos) 0 (pre ++ rest))).
  unfold pattern at 1. rewrite prefix_cons, Ascii.eqb_sym, Hc.
  destruct (IH (S pos) Hpre) as [pos' ->]. by exists pos'.
Qed.

Lemma replace_from_skip s1 s2 : ∀ pos,
  ∃ pos', replace_from pattern replacement whole pos (String.length s1) (s1 ++ s2)
          = replace_from pattern replacement whole pos' 0 s2.
Proof.
  induction s1 as [|c s1 IH]; intros pos; [by exists pos|].
  rewrite app_cons. simpl. apply IH.
Qed.
End Replace.

Lemma placeholder_cons i : placeholder i = String "{" (pretty i ++ "}").
Proof. reflexivity. Qed.

Lemma placeholder_tail_no_brace (i : nat) post :
  contains_char "{" post = false →
  contains_char "{" ((pretty i ++ "}") ++ post) = false.
Proof.
  intros Hpost. rewrite !contains_char_app, Hpost.
  by rewrite (all_digits_no_char "{" _ eq_refl (pretty_nat_digits i)).
Qed.

Lemma replace_from_at_placeholder tail replacement whole pos rest :
  replace_from (String "{" tail) replacement whole pos 0 (String "{" rest)
  = if String.prefix tail rest
    then expand_replacement (String "{" tail) (String.substring 0 pos whole)
           (String.substring (pos + String.length (String "{" tail))
              (String.length whole - (pos + String.length (String "{" tail))) whole)
           replacement
         ++ replace_from (String "{" tail) replacement whole (S pos)
              (String.length tail) rest
    else String "{" (replace_from (String "{" tail) replacement whole (S pos) 0 rest).
Proof.
  change (replace_from (String "{" tail) replacement whole pos 0 (String "{" rest))
    with (if String.prefix (String "{" tail) (String "{" rest)
          then expand_replacement (String "{" tail) (String.substring 0 pos whole)
                 (String.substring (pos + String.length (String "{" tail))
                    (String.length whole - (pos + String.length (String "{" tail))) whole)
                 replacement
               ++ replace_from (String "{" tail) replacement whole (S pos)
                    (String.length (String "{" tail) - 1) rest
          else String "{" (replace_from (String "{" tail) replacement whole (S pos) 0 rest)).
  rewrite prefix_cons, Ascii.eqb_refl. simpl String.length.
  by replace (S (String.length tail) - 1)%nat with (String.length tail) by lia.
Qed.

(** A placeholder of another index is left alone. *)
Lemma replace_all_other_placeholder j i arg pre post :
  j ≠ i →
  contains_char "{" pre = false → contains_char "{" post = false →
  replace_all (placeholder j) arg (pre ++ placeholder i ++ post)
  = pre ++ placeholder i ++ post.
Proof.
  intros Hji Hpre Hpost. unfold replace_all. rewrite !placeholder_cons.
  destruct (replace_from_before (pretty j ++ "}") arg
              (pre ++ String "{" (pretty i ++ "}") ++ post)
              pre (String "{" (pretty i ++ "}") ++ post) 0 Hpre) as [pos ->].
  f_equal. rewrite app_cons, replace_from_at_placeholder.
  destruct (String.prefix (pretty j ++ "}") ((pretty i ++ "}") ++ post)) eqn:Hp.
  - rewrite app_assoc_string in Hp.
    apply prefix_digits_closed in Hp; auto using pretty_nat_digits.
    by apply (inj pretty) in Hp.
  - f_equal. apply replace_from_no_brace. by apply placeholder_tail_no_brace.
Qed.

(** The placeholder of the index is replaced by the argument. *)
Lemma replace_all_own_placeholder i arg pre post :
  contains_char "{" pre = false → contains_char "{" post = false →
  contains_char "$" arg = false →
  replace_all (placeholder i) arg (pre ++ placeholder i ++ post)
  = pre ++ arg ++ post.
Proof.
  intros Hpre Hpost Harg. unfold replace_all. rewrite !placeholder_cons.
  destruct (replace_from_before (pretty i ++ "}") arg
              (pre ++ String "{" (pretty i ++ "}") ++ post)
              pre (String "{" (pretty i ++ "}") ++ post) 0 Hpre) as [pos ->].
  f_equal. rewrite app_cons, replace_from_at_placeholder, prefix_app.
  rewrite expand_replacement_plain by done. f_equal.
  destruct (replace_from_skip (pretty i ++ "}") arg
              (pre ++ String "{" ((pretty i ++ "}") ++ post))
              (pretty i ++ "}") post (S pos)) as [pos' ->].
  by apply replace_from_no_brace.
Qed.

Lemma format_loop_no_brace args : ∀ i formatString,
  contains_char "{" formatString = false →
  format_loop i args formatString = formatString.
Proof.
  induction args as [|arg args IH]; intros i formatString Hfs; simpl; [done|].
  unfold replace_all. rewrite placeholder_cons.
  rewrite replace_from_no_brace by done. by apply IH.
Qed.

(** A format string without an opening brace comes back unchanged,
    whatever the arguments. *)
Theorem format_without_braces formatString args :
  contains_char "{" formatString = false →
  format formatString args = formatString.
Proof. apply format_loop_no_brace. Qed.

Lemma format_without_braces_witness :
  format "Hello there, it is nice}" ["dude"; "$&"] = "Hello there, it is nice}".
Proof. apply format_without_braces. reflexivity. Defined.

Lemma format_loop_substitutes i arg pre post args : ∀ j,
  (j ≤ i)%nat → args !! (i - j)%nat = Some arg →
  contains_char "{" pre = false → contains_char "{" post = false →
  contains_char "{" arg = false → contains_char "$" arg = false →
  format_loop j args (pre ++ placeholder i ++ post) = pre ++ arg ++ post.
Proof.
  induction args as [|a args IH]; intros j Hj Hlookup Hpre Hpost Hbrace Hdollar;
    [done|].
  simpl format_loop. destruct (decide (j = i)) as [->|Hne].
  - rewrite Nat.sub_diag in Hlookup. injection Hlookup as ->.
    rewrite replace_all_own_placeholder by done.
    apply format_loop_no_brace. by rewrite !contains_char_app, Hpre, Hbrace, Hpost.
  - rewrite replace_all_other_placeholder by done.
    apply IH; try done; [lia|].
    replace (i - j)%nat with (S (i - S j)) in Hlookup by lia. done.
Qed.

(** Where the format string has one placeholder, [{i}] between two texts
    without braces, and the argument of index [i] has neither a brace nor a
    dollar sign, [format] puts the argument in the place of the
    placeholder. *)
Theorem format_substitutes pre post args i arg :
  args !! i = Some arg →
  contains_char "{" pre = false → contains_char "{" post = false →
  contains_char "{" arg = false → contains_char "$" arg = false →
  format (pre ++ placeholder i ++ post) args = pre ++ arg ++ post.
Proof.
  intros Hlookup. apply format_loop_substitutes; [lia|].
  by rewrite Nat.sub_0_r.
Qed.

Lemma format_substitutes_witness :
  format ("it is " ++ placeholder 1 ++ " to meet you") ["dude"; "nice"]
  = "it is " ++ "nice" ++ " to meet you".
Proof. apply format_substitutes; reflexivity. Defined.

Lemma placeholder_no_dollar (k : nat) : contains_char "$" (placeholder k) = false.
Proof.
  rewrite placeholder_cons. simpl. rewrite contains_char_app. simpl.
  by rewrite (all_digits_no_char "$" _ eq_refl (pretty_nat_digits k)).
Qed.

Lemma format_loop_chained i k arg pre post args : ∀ j,
  (j ≤ i)%nat → (i < k)%nat →
  args !! (i - j)%nat = Some (placeholder k) → args !! (k - j)%nat = Some arg →
  contains_char "{" pre = false → contains_char "{" post = false →
  contains_char "{" arg = false → contains_char "$" arg = false →
  format_loop j args (pre ++ placeholder i ++ post) = pre ++ arg ++ post.
Proof.
  induction args as [|a args IH];
    intros j Hj Hik Hi Hk Hpre Hpost Hbrace Hdollar; [done|].
  simpl format_loop. destruct (decide (j = i)) as [->|Hne].
  - rewrite Nat.sub_diag in Hi. injection Hi as ->.
    rewrite replace_all_own_placeholder by auto using placeholder_no_dollar.
    replace (k - i)%nat with (S (k - S i)) in Hk by lia.
    apply format_loop_substitutes; (done || lia).
  - rewrite replace_all_other_placeholder by done.
    replace (i - j)%nat with (S (i - S j)) in Hi by lia.
    replace (k - j)%nat with (S (k - S j)) in Hk by lia.
    apply IH; (done || lia).
Qed.

(** [format] replaces one index after the other in the text built so far:
    where the argument of index [i] is itself the placeholder of a later
    index [k], it is the argument of index [k] that ends up in the place of
    [{i}]. *)
Theorem format_rescans_arguments pre post args i k arg :
  (i < k)%nat →
  args !! i = Some (placeholder k) → args !! k = Some arg →
  contains_char "{" pre = false → contains_char "{" post = false →
  contains_char "{" arg = false → contains_char "$" arg = false →
  format (pre ++ placeholder i ++ post) args = pre ++ arg ++ post.
Proof.
  intros Hik Hi Hk.
  apply (format_loop_chained i k); rewrite ?Nat.sub_0_r; (done || lia).
Qed.

Lemma format_rescans_arguments_witness :
  format ("<" ++ placeholder 0 ++ ">") [placeholder 1; "x"] = "<" ++ "x" ++ ">".
Proof. apply (format_rescans_arguments "<" ">" _ 0 1 "x"); (lia || reflexivity). Defined.

